(** * FLINT kernels: [padic_log], [ca_check_equal], [acb_theta_dist_a0]

    A shallow embedding of C functions of three modules of the library,
    and the properties their descriptions state about them.

    - [padic/log.c]: [_padic_log_bound], [_padic_log], [padic_log];
    - [ca/check_equal.c]: [ca_check_equal];
    - [acb_theta/dist_a0.c]: [acb_theta_dist_a0].

    C integers are mathematical integers with the conversions and the
    overflow conditions written out; a call either returns, calls
    [abort()], or leaves the behaviour C defines.  Functions of the library
    whose sources are not part of this development are parameters,
    collected in type classes. *)

From Stdlib Require Import ZArith Lia List Bool QArith.
From stdpp Require Import base option list gmap fin_maps.

Local Open Scope Z_scope.

(** ** Outcomes of a C call *)

Inductive outcome (A : Type) : Type :=
  | Returns (x : A)   (* the call returns x *)
  | Aborts            (* the call prints a message and calls abort() *)
  | Undefined         (* the call leaves defined behaviour: signed overflow,
                         division by zero, access outside an object *)
  | OutOfFuel.        (* the model stopped unrolling a loop *)

Arguments Returns {A} x.
Arguments Aborts {A}.
Arguments Undefined {A}.
Arguments OutOfFuel {A}.

Definition outcome_bind {A B : Type} (k : A -> outcome B) (m : outcome A) : outcome B :=
  match m with
  | Returns x => k x
  | Aborts => Aborts
  | Undefined => Undefined
  | OutOfFuel => OutOfFuel
  end.

#[global] Instance outcome_ret : MRet outcome := fun A x => Returns x.
#[global] Instance outcome_mbind : MBind outcome := fun A B k m => outcome_bind k m.

(** ** Machine integers

    [long] and [unsigned long] ([mp_limb_t]) have [FLINT_BITS] bits; the
    macro comes from the configuration header and is 32 or 64. *)

Class flint_config := { FLINT_BITS : Z }.

Section machine_integers.
Context {cfg : flint_config}.

Definition LONG_MIN : Z := - 2 ^ (FLINT_BITS - 1).
Definition LONG_MAX : Z := 2 ^ (FLINT_BITS - 1) - 1.

(* conversion to unsigned long: reduction modulo 2^FLINT_BITS *)
Definition to_ulong (z : Z) : Z := z mod 2 ^ FLINT_BITS.

(* conversion to long: the two's complement reading of the low bits *)
Definition to_long (z : Z) : Z :=
  (z + 2 ^ (FLINT_BITS - 1)) mod 2 ^ FLINT_BITS - 2 ^ (FLINT_BITS - 1).

(* the result of a signed operation: undefined when not representable *)
Definition long_op (z : Z) : outcome Z :=
  if (LONG_MIN <=? z) && (z <=? LONG_MAX) then Returns z else Undefined.

(* signed division truncates; zero divisor and LONG_MIN / -1 are undefined *)
Definition long_div (x y : Z) : outcome Z :=
  if y =? 0 then Undefined
  else if (x =? LONG_MIN) && (y =? -1) then Undefined
  else Returns (Z.quot x y).

(* unsigned arithmetic wraps around *)
Definition ulong_add (x y : Z) : Z := to_ulong (x + y).
Definition ulong_sub (x y : Z) : Z := to_ulong (x - y).
Definition ulong_div (x y : Z) : outcome Z :=
  if y =? 0 then Undefined else Returns (x / y).
End machine_integers.

(** ** padic/log.c *)

(** Modelled from the spec: [n_flog] and [n_clog] (ulong_extras) are not
    among the sources.  The comment above [_padic_log_bound] reads
    [n_flog(v, p)] as the floor of log_p v and [n_clog(c, p)] as the ceiling
    of log_p c; the definitions below compute these for n >= 1, b >= 2. *)
Fixpoint n_flog_loop (fuel : nat) (n b pw r : Z) : Z :=
  match fuel with
  | O => r
  | S fuel' =>
      if pw * b <=? n then n_flog_loop fuel' n b (pw * b) (r + 1) else r
  end.

Definition n_flog (n b : Z) : Z :=
  n_flog_loop (S (Z.to_nat (Z.log2 n))) n b 1 0.

Definition n_clog (n b : Z) : Z :=
  if n <=? 1 then 0 else n_flog (n - 1) b + 1.

(** The p-adic valuation of an integer i >= 1, the [ord_p] of the comment. *)
Fixpoint ord_p_loop (fuel : nat) (p i : Z) : Z :=
  match fuel with
  | O => 0
  | S fuel' => if i mod p =? 0 then 1 + ord_p_loop fuel' p (i / p) else 0
  end.

Definition ord_p (p i : Z) : Z := ord_p_loop (S (Z.to_nat (Z.log2 i))) p i.

Section padic_log_bound.
Context {cfg : flint_config}.

(* fmpz_fits_si: the integer is representable as a long *)
Definition fmpz_fits_si (x : Z) : bool := (LONG_MIN <=? x) && (x <=? LONG_MAX).

(* while (--b >= 2) { long t = b * v - n_clog(b, p);
                      if (t < N) return b + 1; }
   return 2; *)
Fixpoint _padic_log_bound_loop (fuel : nat) (b v N p : Z) : outcome Z :=
  match fuel with
  | O => OutOfFuel
  | S fuel' =>
      b ← long_op (b - 1);
      if 2 <=? b then
        bv ← long_op (b * v);
        let t := to_long (ulong_sub (to_ulong bv) (n_clog (to_ulong b) (to_ulong p))) in
        if t <? N then long_op (b + 1)
        else _padic_log_bound_loop fuel' b v N p
      else Returns 2
  end.

Definition _padic_log_bound (v N prime : Z) : outcome Z :=
  if N >=? Z.shiftl 1 (FLINT_BITS - 2) then Aborts
  else if fmpz_fits_si prime then
    let p := prime in                                    (* fmpz_get_si *)
    let c := to_long (ulong_sub (to_ulong N) (n_flog (to_ulong v) (to_ulong p))) in
    vm1 ← long_op (v - 1);
    let s := ulong_add
               (ulong_add (ulong_add (to_ulong c) (n_clog (to_ulong c) (to_ulong p))) 1)
               (to_ulong vm1) in
    q ← ulong_div s (to_ulong v);
    let b := to_long q in
    _padic_log_bound_loop (S (Z.to_nat b)) b v N p
  else
    s ← long_op (N + v);
    s1 ← long_op (s - 1);
    long_div s1 v.
End padic_log_bound.

Definition flint64 : flint_config := {| FLINT_BITS := 64 |}.

(** *** [_padic_log] and [padic_log]

    The p-adic number [u * p^v] is the pair of its unit and its valuation;
    of the context only the prime [p] and the precision [N] are read. *)

Record padic_struct := { padic_unit : Z; padic_val : Z }.
Record padic_ctx_struct := { ctx_p : Z; ctx_N : Z }.

(** Functions called by log.c whose sources are elsewhere.  An output
    argument becomes the result; [fmpz_remove(t, x, p)] gives the pair of
    [t] and the returned exponent. *)
Class padic_externals := {
  padic_get_fmpz : padic_struct -> padic_ctx_struct -> Z;
  fmpz_remove : Z -> Z -> Z * Z;
  fmpz_bits : Z -> Z;
  padic_zero : padic_struct -> padic_struct;
  _padic_canonicalise : padic_struct -> padic_ctx_struct -> padic_struct;
  _padic_log_rectangular : Z -> Z -> Z -> Z -> Z;
  _padic_log_balanced : Z -> Z -> Z -> Z -> Z
}.

Section padic_log.
Context {cfg : flint_config} {pe : padic_externals}.

(* z is the output; y, v, p, N the inputs *)
Definition _padic_log (y v p N : Z) : outcome Z :=
  q ← long_div (Z.shiftl 1 9) (to_long (fmpz_bits p));
  if N <? q then Returns (_padic_log_rectangular y v p N)
  else Returns (_padic_log_balanced y v p N).

(* The result is the returned int and the final value of rop.  op is
   read only before rop is first written, so the value of op at entry
   is all that matters, also when op and rop are the same object. *)
Definition padic_log (rop op : padic_struct) (ctx : padic_ctx_struct)
  : outcome (Z * padic_struct) :=
  if padic_val op <? 0 then Returns (0, rop)
  else
    let x := padic_get_fmpz op ctx in
    let x := x - 1 in                                   (* fmpz_sub_ui *)
    let x := - x in                                     (* fmpz_neg *)
    if x =? 0 then Returns (1, padic_zero rop)
    else
      let v := snd (fmpz_remove x (ctx_p ctx)) in
      (* *(ctx->p) != 2L: an fmpz word holds a small value itself *)
      if (v >=? 2) || (negb (ctx_p ctx =? 2) && (v >=? 1)) then
        if v >=? ctx_N ctx then Returns (1, padic_zero rop)
        else
          u ← _padic_log x v (ctx_p ctx) (ctx_N ctx);
          let rop := {| padic_unit := u; padic_val := padic_val rop |} in
          let rop := {| padic_unit := padic_unit rop; padic_val := 0 |} in
          Returns (1, _padic_canonicalise rop ctx)
      else Returns (0, rop).
End padic_log.

(** ** Objects behind pointers

    A pointer argument is a location of a store of objects.  A program
    over the store returns a value and the final store. *)

Abbreviation loc := positive.

Definition prog (O A : Type) : Type := gmap loc O -> outcome (A * gmap loc O).

#[global] Instance prog_ret {O} : MRet (prog O) := fun A x h => Returns (x, h).
#[global] Instance prog_bind {O} : MBind (prog O) :=
  fun A B k m h =>
    match m h with
    | Returns (x, h') => k x h'
    | Aborts => Aborts
    | Undefined => Undefined
    | OutOfFuel => OutOfFuel
    end.

Section store_operations.
Context {O : Type}.

Definition undefined {A : Type} : prog O A := fun _ => Undefined.

Definition lift {A : Type} (m : outcome A) : prog O A :=
  fun h => x ← m; Returns (x, h).

(* reading through a pointer to no object is undefined *)
Definition load (l : loc) : prog O O :=
  fun h => match h !! l with Some o => Returns (o, h) | None => Undefined end.

Definition store (l : loc) (o : O) : prog O unit :=
  fun h => match h !! l with
           | Some _ => Returns (tt, <[l := o]> h)
           | None => Undefined
           end.

(* a new object lives at a location not in use *)
Definition alloc (o : O) : prog O loc :=
  fun h => let l := fresh (dom h) in Returns (l, <[l := o]> h).

Definition free (l : loc) : prog O unit :=
  fun h => match h !! l with
           | Some _ => Returns (tt, delete l h)
           | None => Undefined
           end.

(* for (a = a0; ...; a++) body, over the values a takes, in order *)
Fixpoint for_each (values : list Z) (body : Z -> prog O unit) : prog O unit :=
  match values with
  | [] => mret tt
  | a :: rest => body a ;; for_each rest body
  end.
End store_operations.

(** ** ca/check_equal.c *)

Inductive truth_t := T_TRUE | T_FALSE | T_UNKNOWN.

(** Modelled from the spec: [fmpq_equal] (module fmpq) is not among the
    sources; it tells whether its two arguments are the same rational
    number.  An [fmpq] is the rational it denotes. *)
Definition fmpq_equal (a b : Q) : bool := Qeq_bool a b.

(** What ca.h declares and check_equal.c uses: the identifier of the
    field QQ and the types of the other members of the element union. *)
Class ca_externals := {
  CA_FIELD_ID_QQ : Z;
  nf_elem : Type;
  fmpz_mpoly_q : Type;
  ca_ctx_struct : Type
}.

Section ca_check_equal.
Context {ce : ca_externals}.

(* the union [elem] of a ca_struct, with the member last written *)
Inductive ca_elem :=
  | elem_q (q : Q)
  | elem_nf (e : nf_elem)
  | elem_mpoly_q (e : fmpz_mpoly_q).

Record ca_struct := { ca_field : Z; ca_elem_of : ca_elem }.

Inductive ca_object :=
  | obj_ca (x : ca_struct)
  | obj_ca_ctx (c : ca_ctx_struct).

Definition load_ca (l : loc) : prog ca_object ca_struct :=
  o ← load l;
  match o with obj_ca x => mret x | _ => undefined end.

(* CA_FMPQ(x): the member q of the union *)
Definition CA_FMPQ (x : ca_struct) : prog ca_object Q :=
  match ca_elem_of x with elem_q q => mret q | _ => undefined end.

Definition ca_check_equal (x y ctx : loc) : prog ca_object truth_t :=
  xs ← load_ca x;
  if ca_field xs =? CA_FIELD_ID_QQ then
    ys ← load_ca y;
    if ca_field ys =? CA_FIELD_ID_QQ then
      qx ← CA_FMPQ xs;
      qy ← CA_FMPQ ys;
      mret (if fmpq_equal qx qy then T_TRUE else T_FALSE)
    else mret T_UNKNOWN
  else mret T_UNKNOWN.
End ca_check_equal.

(** ** acb_theta/dist_a0.c *)

(** The ball arithmetic that dist_a0.c calls.  [arb] is a real ball, [acb]
    a complex ball; a vector is a list, a matrix the list of its rows.  Each
    function takes the values its C counterpart reads and gives the value
    it writes to its output argument ([arb_mat_inv] also the returned
    int). *)
Class arb_substrate := {
  arb : Type;
  acb : Type;
  arb_zero : arb;
  acb_mat_get_imag_fn : list (list acb) -> list (list arb);
  arb_mat_inv_fn : list (list arb) -> Z -> Z * list (list arb);
  acb_theta_eld_cho_fn : list (list acb) -> Z -> list (list arb);
  _acb_vec_get_imag_fn : list acb -> Z -> list arb;
  arb_mat_vector_mul_col_fn : list (list arb) -> list arb -> Z -> list arb;
  acb_theta_char_get_arb_fn : Z -> Z -> list arb;
  _arb_vec_add_fn : list arb -> list arb -> Z -> Z -> list arb;
  acb_theta_dist_lat_fn : list arb -> list (list arb) -> Z -> arb
}.

(* E1 << E2 in type int (32 bits): undefined for a negative operand, a
   shift count outside [0, 32), or a result that int cannot hold *)
Definition INT_MAX : Z := 2 ^ 31 - 1.

Definition int_shl (x s : Z) : outcome Z :=
  if (0 <=? x) && (0 <=? s) && (s <? 32) && (x * 2 ^ s <=? INT_MAX)
  then Returns (x * 2 ^ s) else Undefined.

(* a matrix of r rows of c entries each *)
Definition has_dims {A : Type} (r c : Z) (m : list (list A)) : bool :=
  (Z.of_nat (length m) =? r) && forallb (fun row => Z.of_nat (length row) =? c) m.

(* two matrices with the same number of rows and the same rows' lengths *)
Definition same_dims {A B : Type} (m1 : list (list A)) (m2 : list (list B)) : bool :=
  bool_decide (length <$> m1 = length <$> m2).

Section acb_theta_dist_a0.
Context {sub : arb_substrate}.

Inductive theta_object :=
  | obj_arb_vec (xs : list arb)
  | obj_arb_mat (m : list (list arb))
  | obj_acb_vec (zs : list acb)
  | obj_acb_mat (m : list (list acb)).

Definition load_arb_vec (l : loc) : prog theta_object (list arb) :=
  o ← load l; match o with obj_arb_vec xs => mret xs | _ => undefined end.
Definition load_arb_mat (l : loc) : prog theta_object (list (list arb)) :=
  o ← load l; match o with obj_arb_mat m => mret m | _ => undefined end.
Definition load_acb_vec (l : loc) : prog theta_object (list acb) :=
  o ← load l; match o with obj_acb_vec zs => mret zs | _ => undefined end.
Definition load_acb_mat (l : loc) : prog theta_object (list (list acb)) :=
  o ← load l; match o with obj_acb_mat m => mret m | _ => undefined end.

Definition acb_mat_nrows (m : list (list acb)) : Z := Z.of_nat (length m).

(* initialisation sets every entry to zero *)
Definition arb_mat_init (r c : Z) : prog theta_object loc :=
  alloc (obj_arb_mat (replicate (Z.to_nat r) (replicate (Z.to_nat c) arb_zero))).
Definition _arb_vec_init (n : Z) : prog theta_object loc :=
  alloc (obj_arb_vec (replicate (Z.to_nat n) arb_zero)).
Definition arb_mat_clear (m : loc) : prog theta_object unit :=
  _ ← load_arb_mat m; free m.
Definition _arb_vec_clear (v : loc) (n : Z) : prog theta_object unit :=
  _ ← load_arb_vec v; free v.

(* entry (i, j) of A goes to entry (i, j) of B: B is to have the
   dimensions of A, and the call is undefined when it has others *)
Definition acb_mat_get_imag (B A : loc) : prog theta_object unit :=
  a ← load_acb_mat A;
  b ← load_arb_mat B;
  if same_dims a b
  then store B (obj_arb_mat (acb_mat_get_imag_fn a))
  else undefined.

(* the returned int is not used by the caller *)
Definition arb_mat_inv (X A : loc) (prec : Z) : prog theta_object Z :=
  a ← load_arb_mat A;
  _ ← load_arb_mat X;
  let '(r, x) := arb_mat_inv_fn a prec in
  store X (obj_arb_mat x) ;; mret r.

(* the factor of the imaginary part of tau: C is to have the dimensions
   of tau, as the output of [acb_mat_get_imag] *)
Definition acb_theta_eld_cho (C tau : loc) (prec : Z) : prog theta_object unit :=
  t ← load_acb_mat tau;
  c ← load_arb_mat C;
  if same_dims t c
  then store C (obj_arb_mat (acb_theta_eld_cho_fn t prec))
  else undefined.

(* reads z[0], ..., z[n-1] *)
Definition _acb_vec_get_imag (res z : loc) (n : Z) : prog theta_object unit :=
  zs ← load_acb_vec z;
  _ ← load_arb_vec res;
  if n <=? Z.of_nat (length zs)
  then store res (obj_arb_vec (_acb_vec_get_imag_fn zs n))
  else undefined.

Definition arb_mat_vector_mul_col (res A v : loc) (prec : Z) : prog theta_object unit :=
  a ← load_arb_mat A;
  x ← load_arb_vec v;
  _ ← load_arb_vec res;
  store res (obj_arb_vec (arb_mat_vector_mul_col_fn a x prec)).

Definition acb_theta_char_get_arb (v : loc) (a g : Z) : prog theta_object unit :=
  _ ← load_arb_vec v;
  store v (obj_arb_vec (acb_theta_char_get_arb_fn a g)).

Definition _arb_vec_add (res x y : loc) (n prec : Z) : prog theta_object unit :=
  xs ← load_arb_vec x;
  ys ← load_arb_vec y;
  _ ← load_arb_vec res;
  store res (obj_arb_vec (_arb_vec_add_fn xs ys n prec)).

(* acb_theta_dist_lat(&dist[a], v, C, prec): the output is entry a of
   the array at dist *)
Definition acb_theta_dist_lat (dist : loc) (a : Z) (v C : loc) (prec : Z)
  : prog theta_object unit :=
  x ← load_arb_vec v;
  c ← load_arb_mat C;
  d ← load_arb_vec dist;
  if (0 <=? a) && (a <? Z.of_nat (length d))
  then store dist (obj_arb_vec (<[Z.to_nat a := acb_theta_dist_lat_fn x c prec]> d))
  else undefined.

(* The function with the order of the loop left open: [order n] lists
   the values of a for which the body runs. *)
Definition acb_theta_dist_a0_in_order (order : Z -> list Z)
    (dist z tau : loc) (prec : Z) : prog theta_object unit :=
  t ← load_acb_mat tau;
  let g := acb_mat_nrows t in
  n ← lift (int_shl 1 g);
  Yinv ← arb_mat_init g g;
  cho ← arb_mat_init g g;
  v ← _arb_vec_init g;
  w ← _arb_vec_init g;
  acb_mat_get_imag Yinv tau ;;
  arb_mat_inv Yinv Yinv prec ;;
  acb_theta_eld_cho cho tau prec ;;
  _acb_vec_get_imag v z g ;;
  arb_mat_vector_mul_col v Yinv v prec ;;
  for_each (order n) (fun a =>
    acb_theta_char_get_arb w a g ;;
    _arb_vec_add w v w g prec ;;
    arb_mat_vector_mul_col w cho w prec ;;
    acb_theta_dist_lat dist a w cho prec) ;;
  arb_mat_clear Yinv ;;
  arb_mat_clear cho ;;
  _arb_vec_clear v g ;;
  _arb_vec_clear w g.

(* for (a = 0; a < n; a++): n is between 1 and 2^30 here, so the
   comparison of the ulong a with the slong n is that of their values *)
Definition acb_theta_dist_a0 (dist z tau : loc) (prec : Z) : prog theta_object unit :=
  acb_theta_dist_a0_in_order (fun n => seqZ 0 n) dist z tau prec.

(** The loop with its iterations run by threads, one for each value of
    a, on the one store.  An iteration is the four calls it makes, numbered
    from 0; a schedule lists the threads in the order in which they make
    their calls, and [made a] counts the calls that thread a has made. *)
Definition dist_a0_iteration_call (dist v w cho : loc) (g prec : Z) (a : Z) (k : nat)
  : prog theta_object unit :=
  match k with
  | 0%nat => acb_theta_char_get_arb w a g
  | 1%nat => _arb_vec_add w v w g prec
  | 2%nat => arb_mat_vector_mul_col w cho w prec
  | 3%nat => acb_theta_dist_lat dist a w cho prec
  | _ => mret tt
  end.

Fixpoint run_schedule (call : Z -> nat -> prog theta_object unit)
    (schedule : list Z) (made : Z -> nat) : prog theta_object unit :=
  match schedule with
  | [] => mret tt
  | a :: rest =>
      call a (made a) ;;
      run_schedule call rest (fun b => if decide (b = a) then S (made a) else made b)
  end.

(* the threads one after the other, each making its four calls *)
Definition sequential_schedule (order : list Z) : list Z :=
  a ← order; replicate 4 a.

Definition acb_theta_dist_a0_threads (schedule : Z -> list Z)
    (dist z tau : loc) (prec : Z) : prog theta_object unit :=
  t ← load_acb_mat tau;
  let g := acb_mat_nrows t in
  n ← lift (int_shl 1 g);
  Yinv ← arb_mat_init g g;
  cho ← arb_mat_init g g;
  v ← _arb_vec_init g;
  w ← _arb_vec_init g;
  acb_mat_get_imag Yinv tau ;;
  arb_mat_inv Yinv Yinv prec ;;
  acb_theta_eld_cho cho tau prec ;;
  _acb_vec_get_imag v z g ;;
  arb_mat_vector_mul_col v Yinv v prec ;;
  run_schedule (dist_a0_iteration_call dist v w cho g prec) (schedule n)
    (fun _ => 0%nat) ;;
  arb_mat_clear Yinv ;;
  arb_mat_clear cho ;;
  _arb_vec_clear v g ;;
  _arb_vec_clear w g.

(** The same result written as the description of the algorithm has it:
    the three values computed once, and the entry of characteristic a. *)
Definition described_Yinv (t : list (list acb)) (prec : Z) : list (list arb) :=
  snd (arb_mat_inv_fn (acb_mat_get_imag_fn t) prec).

Definition described_cho (t : list (list acb)) (prec : Z) : list (list arb) :=
  acb_theta_eld_cho_fn t prec.

Definition described_v (t : list (list acb)) (zs : list acb) (prec : Z) : list arb :=
  arb_mat_vector_mul_col_fn (described_Yinv t prec)
    (_acb_vec_get_imag_fn zs (acb_mat_nrows t)) prec.

(* offset of the characteristic a, plus v, times the Cholesky factor,
   and the lattice distance of that *)
Definition characteristic_distance (C : list (list arb)) (V : list arb)
    (g prec a : Z) : arb :=
  let offset := acb_theta_char_get_arb_fn a g in
  let shifted := _arb_vec_add_fn V offset g prec in
  let w := arb_mat_vector_mul_col_fn C shifted prec in
  acb_theta_dist_lat_fn w C prec.

Definition described_entry (t : list (list acb)) (zs : list acb) (prec : Z) (a : Z) : arb :=
  characteristic_distance (described_cho t prec) (described_v t zs prec)
    (acb_mat_nrows t) prec a.

(* an array after the entries of the indices in l were written, in the
   order of l, each index a with the value f a *)
Definition write_entries (f : Z -> arb) (D : list arb) (l : list Z) : list arb :=
  foldl (fun D a => <[Z.to_nat a := f a]> D) D l.

(* a is an index into an array of n entries *)
Definition in_bounds (n : nat) (a : Z) : bool := (0 <=? a) && (a <? Z.of_nat n).
End acb_theta_dist_a0.

(** The store while the loop runs: the store [h] of the caller with the
    distance array [D] written so far, and the four scratch objects. *)
Definition working_store {sub : arb_substrate} (h : gmap loc theta_object)
    (dist lY lC lv lw : loc) (D : list arb) (Y C : list (list arb)) (V W : list arb)
  : gmap loc theta_object :=
  <[lw := obj_arb_vec W]> (<[lv := obj_arb_vec V]> (<[lC := obj_arb_mat C]>
    (<[lY := obj_arb_mat Y]> (<[dist := obj_arb_vec D]> h)))).

(** ** Instances to run the models on

    Small exact stand-ins for the parameters, used where a statement is
    evaluated on concrete data. *)

(* p-adic numbers without rounding; the series itself is left out *)
Definition test_padic : padic_externals := {|
  padic_get_fmpz op ctx := padic_unit op * ctx_p ctx ^ padic_val op;
  fmpz_remove x p := (x / p ^ ord_p p (Z.abs x), ord_p p (Z.abs x));
  fmpz_bits n := if n =? 0 then 0 else Z.log2 (Z.abs n) + 1;
  padic_zero _ := {| padic_unit := 0; padic_val := 0 |};
  _padic_canonicalise rop _ := rop;
  _padic_log_rectangular _ _ _ _ := 0;
  _padic_log_balanced _ _ _ _ := 0
|}.

Definition test_ca : ca_externals := {|
  CA_FIELD_ID_QQ := 0;
  nf_elem := unit;
  fmpz_mpoly_q := unit;
  ca_ctx_struct := unit
|}.

(* balls of radius zero around integers, counted in halves; the precision
   is ignored, inversion is left out, and the lattice distance is the
   squared norm *)
Definition test_substrate : arb_substrate := {|
  arb := Z;
  acb := Z * Z;
  arb_zero := 0;
  acb_mat_get_imag_fn t := map (map snd) t;
  arb_mat_inv_fn m _ := (1, m);
  acb_theta_eld_cho_fn t _ := map (map snd) t;
  _acb_vec_get_imag_fn zs n := map snd (take (Z.to_nat n) zs);
  arb_mat_vector_mul_col_fn m x _ :=
    map (fun row => foldr Z.add 0 (zip_with Z.mul row x)) m;
  acb_theta_char_get_arb_fn a g :=
    map (fun k => if Z.testbit a (g - 1 - k) then 1 else 0) (seqZ 0 g);
  _arb_vec_add_fn x y _ _ := zip_with Z.add x y;
  acb_theta_dist_lat_fn w _ _ := foldr Z.add 0 (map (fun x => x * x) w)
|}.

(* tau = 2i * identity (g = 2), z = (i, 3i) and an array of four
   distances, at the locations 3, 2 and 1 *)
Definition test_tau : list (list (Z * Z)) := [[(0, 2); (0, 0)]; [(0, 0); (0, 2)]].
Definition test_z : list (Z * Z) := [(0, 1); (0, 3)].

Definition test_arb_vec (xs : list Z) : theta_object (sub := test_substrate) :=
  obj_arb_vec (sub := test_substrate) xs.
Definition test_acb_vec (zs : list (Z * Z)) : theta_object (sub := test_substrate) :=
  obj_acb_vec (sub := test_substrate) zs.
Definition test_acb_mat (m : list (list (Z * Z))) : theta_object (sub := test_substrate) :=
  obj_acb_mat (sub := test_substrate) m.

Definition test_store : gmap loc (theta_object (sub := test_substrate)) :=
  {[ 1%positive := test_arb_vec [7; 7; 7; 7];
     2%positive := test_acb_vec test_z;
     3%positive := test_acb_mat test_tau ]}.

(* tau = i * identity with 31 rows, z = 0 with 31 entries, and any array
   of distances *)
Definition test_store_31 (D : list Z) : gmap loc (theta_object (sub := test_substrate)) :=
  {[ 1%positive := test_arb_vec D;
     2%positive := test_acb_vec (replicate 31 (0, 0));
     3%positive := test_acb_mat
       (map (fun r => map (fun c => (0, if r =? c then 1 else 0)) (seqZ 0 31)) (seqZ 0 31)) ]}.

(* the first store with a vector z of one entry only *)
Definition test_store_short_z : gmap loc (theta_object (sub := test_substrate)) :=
  {[ 1%positive := test_arb_vec [7; 7; 7; 7];
     2%positive := test_acb_vec [(0, 1)];
     3%positive := test_acb_mat test_tau ]}.

(* 1/2 and 2/4 in the field QQ, and an element of another field *)
Definition test_ca_q (q : Q) : ca_object (ce := test_ca) :=
  obj_ca (ce := test_ca) {| ca_field := 0; ca_elem_of := elem_q (ce := test_ca) q |}.

Definition test_ca_store : gmap loc (ca_object (ce := test_ca)) :=
  {[ 1%positive := test_ca_q (1 # 2);
     2%positive := test_ca_q (2 # 4);
     3%positive := obj_ca (ce := test_ca)
                     {| ca_field := 5; ca_elem_of := elem_nf (ce := test_ca) tt |};
     4%positive := obj_ca_ctx (ce := test_ca) tt ]}.

(** ** Variations of the parameters and further test data *)

(* the same functions, with other series routines *)
Definition padic_with_series (pe : padic_externals)
    (rect bal : Z -> Z -> Z -> Z -> Z) : padic_externals :=
  {| padic_get_fmpz := padic_get_fmpz (padic_externals := pe);
     fmpz_remove := fmpz_remove (padic_externals := pe);
     fmpz_bits := fmpz_bits (padic_externals := pe);
     padic_zero := padic_zero (padic_externals := pe);
     _padic_canonicalise := _padic_canonicalise (padic_externals := pe);
     _padic_log_rectangular := rect;
     _padic_log_balanced := bal |}.

(* 1/2, 2/4 and 3/6 in the field QQ, then 1/3 *)
Definition test_ca_store_QQ : gmap loc (ca_object (ce := test_ca)) :=
  {[ 1%positive := test_ca_q (1 # 2);
     2%positive := test_ca_q (2 # 4);
     3%positive := test_ca_q (3 # 6);
     4%positive := test_ca_q (1 # 3) ]}.

(* the first store with a second array of distances at location 4 *)
Definition test_store_two_arrays : gmap loc (theta_object (sub := test_substrate)) :=
  {[ 1%positive := test_arb_vec [7; 7; 7; 7];
     2%positive := test_acb_vec test_z;
     3%positive := test_acb_mat test_tau;
     4%positive := test_arb_vec [9; 9; 9; 9; 9] ]}.

(* a matrix without rows *)
Definition test_store_no_rows : gmap loc (theta_object (sub := test_substrate)) :=
  {[ 1%positive := test_arb_vec [7; 7];
     2%positive := test_acb_vec [];
     3%positive := test_acb_mat [] ]}.

(* a matrix tau of two rows and three columns *)
Definition test_store_2_by_3 : gmap loc (theta_object (sub := test_substrate)) :=
  {[ 1%positive := test_arb_vec [7; 7; 7; 7];
     2%positive := test_acb_vec test_z;
     3%positive := test_acb_mat [[(0, 2); (0, 0); (0, 1)]; [(0, 0); (0, 2); (0, 1)]] ]}.

(* thread 0 makes its first call, thread 1 all four of its calls, then
   thread 0 its other three; threads 2 and 3 follow *)
Definition test_schedule : list Z :=
  [0; 1; 1; 1; 1; 0; 0; 0; 2; 2; 2; 2; 3; 3; 3; 3].

(** * Properties *)

(** ** Machine integers *)

Section machine_integer_facts.
Context {cfg : flint_config}.
Hypothesis bits_cases : FLINT_BITS = 32 \/ FLINT_BITS = 64.

Lemma word_sizes :
  exists W, 2 ^ 30 <= W /\ 2 ^ (FLINT_BITS - 2) = W /\
            2 ^ (FLINT_BITS - 1) = 2 * W /\ 2 ^ FLINT_BITS = 4 * W.
Proof using bits_cases.
  destruct bits_cases as [-> | ->].
  - exists (2 ^ 30). repeat split; [lia | reflexivity ..].
  - exists (2 ^ 62). repeat split; [lia | reflexivity ..].
Qed.

Lemma shiftl_one_bits : Z.shiftl 1 (FLINT_BITS - 2) = 2 ^ (FLINT_BITS - 2).
Proof using bits_cases.
  rewrite Z.shiftl_1_l. reflexivity.
Qed.

Lemma to_ulong_small (z : Z) : 0 <= z < 2 ^ FLINT_BITS -> to_ulong z = z.
Proof. intros Hz. unfold to_ulong. apply Z.mod_small. exact Hz. Qed.

Lemma to_long_to_ulong (z : Z) : to_long (to_ulong z) = to_long z.
Proof using bits_cases.
  destruct word_sizes as (W & HW & _ & H1 & H2).
  unfold to_long, to_ulong. rewrite H1, H2.
  rewrite Zplus_mod_idemp_l. reflexivity.
Qed.

Lemma to_long_small (z : Z) : LONG_MIN <= z <= LONG_MAX -> to_long z = z.
Proof using bits_cases.
  destruct word_sizes as (W & HW & _ & H1 & H2).
  unfold to_long, LONG_MIN, LONG_MAX. rewrite H1, H2. intros Hz.
  rewrite Z.mod_small by lia. lia.
Qed.

Lemma long_op_in_range (z : Z) : LONG_MIN <= z <= LONG_MAX -> long_op z = Returns z.
Proof.
  intros Hz. unfold long_op.
  destruct (Z.leb_spec LONG_MIN z), (Z.leb_spec z LONG_MAX); simpl; trivial; lia.
Qed.

Lemma long_op_cases (z : Z) : long_op z = Returns z \/ long_op z = Undefined.
Proof. unfold long_op. destruct (_ && _); [left | right]; reflexivity. Qed.
End machine_integer_facts.

(** ** padic/log.c: logarithms and valuations *)

Section logarithms.
Variables (b : Z).
Hypothesis base_ge_2 : 2 <= b.

Lemma pow_base_pos (k : Z) : 0 <= k -> 1 <= b ^ k.
Proof using base_ge_2.
  intros Hk. assert (0 < b ^ k) by (apply Z.pow_pos_nonneg; lia). lia.
Qed.

Lemma pow_base_succ (k : Z) : 0 <= k -> b ^ (k + 1) = b ^ k * b.
Proof. intros Hk. rewrite Z.pow_add_r by lia. rewrite Z.pow_1_r. reflexivity. Qed.

Lemma pow_base_double (k : Z) : 0 <= k -> 2 * b ^ k <= b ^ (k + 1).
Proof using base_ge_2.
  intros Hk. rewrite pow_base_succ by assumption.
  pose proof (pow_base_pos k Hk). nia.
Qed.

(* an exponent is below its power *)
Lemma exponent_lt_pow (k : Z) : 0 <= k -> k < b ^ k.
Proof using base_ge_2.
  intros Hk. pattern k. apply natlike_ind; [| | exact Hk].
  - rewrite Z.pow_0_r. lia.
  - intros x Hx IH. unfold Z.succ.
    pose proof (pow_base_double x Hx). lia.
Qed.

Lemma pow_base_le_inv (j k : Z) : 0 <= j -> 0 <= k -> b ^ j <= b ^ k -> j <= k.
Proof using base_ge_2.
  intros Hj Hk Hle. apply (Z.pow_le_mono_r_iff b); lia.
Qed.

Lemma n_flog_loop_spec (fuel : nat) (n pw r : Z) :
  0 <= r -> pw = b ^ r -> pw <= n -> n < pw * 2 ^ Z.of_nat fuel ->
  let r' := n_flog_loop fuel n b pw r in
  r <= r' /\ b ^ r' <= n < b ^ (r' + 1).
Proof using base_ge_2.
  revert pw r. induction fuel as [|fuel IH]; intros pw r Hr Hpw Hle Hlt.
  - simpl in Hlt. lia.
  - cbn [n_flog_loop]. destruct (Z.leb_spec (pw * b) n) as [Hstep | Hstop].
    + assert (Hpos : 1 <= pw) by (subst pw; apply pow_base_pos; lia).
      destruct (IH (pw * b) (r + 1)) as (H1 & H2).
      * lia.
      * subst pw. symmetry. apply pow_base_succ. lia.
      * exact Hstep.
      * rewrite Nat2Z.inj_succ, Z.pow_succ_r in Hlt by lia.
        assert (0 < 2 ^ Z.of_nat fuel) by (apply Z.pow_pos_nonneg; lia). nia.
      * cbv zeta. split; [lia | exact H2].
    + cbv zeta. split; [lia |]. subst pw. split; [exact Hle |].
      rewrite pow_base_succ by lia. exact Hstop.
Qed.

Lemma n_flog_spec (n : Z) :
  1 <= n -> 0 <= n_flog n b /\ b ^ n_flog n b <= n < b ^ (n_flog n b + 1).
Proof using base_ge_2.
  intros Hn. unfold n_flog.
  assert (Hfuel : n < 1 * 2 ^ Z.of_nat (S (Z.to_nat (Z.log2 n)))).
  { rewrite Nat2Z.inj_succ, Z2Nat.id by apply Z.log2_nonneg.
    destruct (Z.log2_spec n) as [_ Hup]; lia. }
  destruct (n_flog_loop_spec (S (Z.to_nat (Z.log2 n))) n 1 0) as (H0 & H1);
    [lia | symmetry; apply Z.pow_0_r | lia | exact Hfuel |].
  split; [exact H0 | exact H1].
Qed.

Lemma n_clog_spec (n : Z) :
  2 <= n -> 1 <= n_clog n b /\ b ^ (n_clog n b - 1) < n <= b ^ n_clog n b.
Proof using base_ge_2.
  intros Hn. unfold n_clog.
  destruct (Z.leb_spec n 1) as [? | _]; [lia |].
  destruct (n_flog_spec (n - 1)) as (H0 & H1 & H2); [lia |].
  replace (n_flog (n - 1) b + 1 - 1) with (n_flog (n - 1) b) by lia.
  lia.
Qed.

Lemma n_clog_lt (n : Z) : 2 <= n -> n_clog n b < n.
Proof using base_ge_2.
  intros Hn. destruct (n_clog_spec n Hn) as (H1 & H2 & _).
  pose proof (exponent_lt_pow (n_clog n b - 1)). lia.
Qed.

Lemma n_flog_lt (n : Z) : 1 <= n -> n_flog n b < n.
Proof using base_ge_2.
  intros Hn. destruct (n_flog_spec n Hn) as (H0 & H1 & _).
  pose proof (exponent_lt_pow (n_flog n b) H0). lia.
Qed.

(* a power dividing a positive integer is at most that integer *)
Lemma pow_divides_le (k i : Z) : 0 <= k -> 1 <= i -> (b ^ k | i) -> b ^ k <= i.
Proof. intros Hk Hi Hd. apply Z.divide_pos_le; [lia | exact Hd]. Qed.

Lemma ord_p_loop_spec (fuel : nat) (i : Z) :
  1 <= i -> i < 2 ^ Z.of_nat fuel ->
  let k := ord_p_loop fuel b i in
  0 <= k /\ (b ^ k | i) /\ ~ (b ^ (k + 1) | i).
Proof using base_ge_2.
  revert i. induction fuel as [|fuel IH]; intros i Hi Hlt.
  - simpl in Hlt. lia.
  - cbn [ord_p_loop]. destruct (Z.eqb_spec (i mod b) 0) as [Hmod | Hmod].
    + assert (Hi' : i = b * (i / b)) by (apply Z_div_exact_full_2; lia).
      assert (Hq : 1 <= i / b) by nia.
      destruct (IH (i / b)) as (H0 & H1 & H2); [exact Hq | |].
      { rewrite Nat2Z.inj_succ, Z.pow_succ_r in Hlt by lia. nia. }
      cbv zeta. split; [lia |]. split.
      * replace (1 + ord_p_loop fuel b (i / b)) with (ord_p_loop fuel b (i / b) + 1) by lia.
        rewrite pow_base_succ by exact H0. rewrite Hi' at 2.
        rewrite (Z.mul_comm b). apply Z.mul_divide_mono_r. exact H1.
      * intros Hd. apply H2.
        replace (1 + ord_p_loop fuel b (i / b) + 1)
          with ((ord_p_loop fuel b (i / b) + 1) + 1) in Hd by lia.
        rewrite (pow_base_succ (_ + 1)) in Hd by lia. rewrite Hi' in Hd at 2.
        rewrite (Z.mul_comm b) in Hd.
        apply Z.mul_divide_cancel_r in Hd; [exact Hd | lia].
    + cbv zeta. split; [lia |]. split.
      * rewrite Z.pow_0_r. apply Z.divide_1_l.
      * rewrite Z.add_0_l, Z.pow_1_r. intros Hd. apply Hmod.
        apply Z.mod_divide; [lia | exact Hd].
Qed.

Lemma ord_p_spec (i : Z) :
  1 <= i -> 0 <= ord_p b i /\ (b ^ ord_p b i | i) /\ ~ (b ^ (ord_p b i + 1) | i).
Proof using base_ge_2.
  intros Hi. unfold ord_p.
  assert (Hfuel : i < 2 ^ Z.of_nat (S (Z.to_nat (Z.log2 i)))).
  { rewrite Nat2Z.inj_succ, Z2Nat.id by apply Z.log2_nonneg.
    destruct (Z.log2_spec i) as [_ Hup]; lia. }
  exact (ord_p_loop_spec (S (Z.to_nat (Z.log2 i))) i Hi Hfuel).
Qed.

(* the valuation is at most the ceiling logarithm *)
Lemma ord_p_le_clog (i : Z) : 2 <= i -> ord_p b i <= n_clog i b.
Proof using base_ge_2.
  intros Hi. destruct (ord_p_spec i) as (H0 & Hd & _); [lia |].
  destruct (n_clog_spec i Hi) as (H1 & _ & H2).
  apply pow_base_le_inv; try lia.
  pose proof (pow_divides_le _ i H0 ltac:(lia) Hd). lia.
Qed.
End logarithms.

(** ** padic/log.c: [_padic_log_bound] *)

Section series_tail.
Variables (p v N : Z).
Hypothesis p_ge_2 : 2 <= p.
Hypothesis val_range : 1 <= v < N.

(* beyond the exponent ceil(log_p c) + 2 the power p^m exceeds c + m *)
Lemma pow_dominates (c m : Z) :
  2 <= c -> n_clog c p + 2 <= m -> c + m <= p ^ m.
Proof using p_ge_2.
  intros Hc Hm.
  destruct (n_clog_spec p p_ge_2 c Hc) as (HC1 & _ & HC2).
  pose proof (n_clog_lt p p_ge_2 c Hc) as HC3.
  replace m with (n_clog c p + 2 + (m - (n_clog c p + 2))) by lia.
  assert (Hj : 0 <= m - (n_clog c p + 2)) by lia.
  generalize dependent (m - (n_clog c p + 2)). intros j Hj.
  pattern j. apply natlike_ind; [| | exact Hj].
  - rewrite Z.add_0_r, Z.pow_add_r by lia.
    assert (4 <= p ^ 2) by (rewrite Z.pow_2_r; nia). nia.
  - intros x Hx IH. unfold Z.succ.
    replace (n_clog c p + 2 + (x + 1)) with ((n_clog c p + 2 + x) + 1) by lia.
    pose proof (pow_base_double p p_ge_2 (n_clog c p + 2 + x) ltac:(lia)). lia.
Qed.

(* the comment of log.c: with c = N - floor(log_p v), every index from
   ceil((c + ceil(log_p c) + 1) / v) on gives a term vanishing mod p^N *)
Lemma series_tail_bound (b0 : Z) :
  N - n_flog v p + n_clog (N - n_flog v p) p + 1 <= b0 * v ->
  forall i k, b0 <= i -> 0 <= k -> (p ^ k | i) -> N + k <= i * v.
Proof using p_ge_2 val_range.
  intros Hb0 i k Hi Hk Hd.
  destruct (n_flog_spec p p_ge_2 v ltac:(lia)) as (Hf0 & Hf1 & _).
  pose proof (n_flog_lt p p_ge_2 v ltac:(lia)) as Hf2.
  set (f := n_flog v p) in *. set (c := N - f) in *.
  assert (Hc : 2 <= c) by (unfold c; lia).
  destruct (n_clog_spec p p_ge_2 c Hc) as (HC1 & _).
  set (C := n_clog c p) in *.
  assert (Hb1 : 1 <= b0) by nia.
  destruct (Z_le_gt_dec k (C + 1 - f)) as [Hsmall | Hlarge].
  - assert (b0 * v <= i * v) by nia. unfold c in *. lia.
  - pose proof (pow_divides_le p k i Hk ltac:(lia) Hd) as Hpk.
    pose proof (pow_dominates c (k + f) Hc ltac:(fold C; lia)) as Hdom.
    rewrite Z.pow_add_r in Hdom by lia.
    assert (1 <= p ^ k) by (apply pow_base_pos; lia).
    assert (p ^ k * p ^ f <= i * v) by nia.
    unfold c in *. lia.
Qed.

(* a prime beyond 2N: indices from ceil(N / v) on *)
Lemma pow_dominates_large (k : Z) : 2 * N <= p -> 1 <= k -> N + k <= p ^ k.
Proof using p_ge_2 val_range.
  intros Hp Hk.
  replace k with (1 + (k - 1)) by lia.
  assert (Hj : 0 <= k - 1) by lia.
  generalize dependent (k - 1). intros j Hj.
  pattern j. apply natlike_ind; [| | exact Hj].
  - rewrite Z.add_0_r, Z.pow_1_r. lia.
  - intros x Hx IH. unfold Z.succ.
    replace (1 + (x + 1)) with ((1 + x) + 1) by lia.
    pose proof (pow_base_double p p_ge_2 (1 + x) ltac:(lia)). lia.
Qed.

Lemma series_tail_bound_large (b0 : Z) :
  2 * N <= p -> N <= b0 * v ->
  forall i k, b0 <= i -> 0 <= k -> (p ^ k | i) -> N + k <= i * v.
Proof using p_ge_2 val_range.
  intros Hp Hb0 i k Hi Hk Hd.
  assert (Hb1 : 1 <= b0) by nia.
  assert (b0 * v <= i * v) by nia.
  destruct (Z.eq_dec k 0) as [-> | Hk0]; [lia |].
  pose proof (pow_divides_le p k i Hk ltac:(lia) Hd) as Hpk.
  pose proof (pow_dominates_large k Hp ltac:(lia)).
  nia.
Qed.
End series_tail.

Section log_bound.
Context {cfg : flint_config}.
Hypothesis bits_cases : FLINT_BITS = 32 \/ FLINT_BITS = 64.

Lemma long_sub_ulong (x y : Z) :
  0 <= x <= LONG_MAX -> 0 <= y <= LONG_MAX ->
  to_long (ulong_sub x y) = x - y.
Proof using bits_cases.
  intros Hx Hy. unfold ulong_sub. rewrite to_long_to_ulong by assumption.
  apply to_long_small; [assumption |]. unfold LONG_MIN, LONG_MAX in *. lia.
Qed.

Lemma long_max_ulong (x : Z) : 0 <= x <= LONG_MAX -> 0 <= x < 2 ^ FLINT_BITS.
Proof using bits_cases.
  destruct (word_sizes bits_cases) as (W & HW & _ & H1 & H2).
  unfold LONG_MAX. rewrite H1, H2. lia.
Qed.

(* the countdown of the first branch: every index from b on is already
   known to be good; the loop extends this downwards *)
Lemma log_bound_loop_correct (p v N : Z) (fuel : nat) (b : Z) :
  2 <= p <= LONG_MAX -> 1 <= v -> 1 <= N <= LONG_MAX ->
  1 <= b <= LONG_MAX -> (b - 1) * v <= LONG_MAX ->
  b < Z.of_nat fuel ->
  (forall i, b <= i -> N <= i * v - ord_p p i) ->
  exists B, _padic_log_bound_loop fuel b v N p = Returns B /\ 2 <= B /\
            forall i, B <= i -> N <= i * v - ord_p p i.
Proof using bits_cases.
  intros Hp Hv HN. revert b.
  induction fuel as [|fuel IH]; intros b Hb Hbv Hfuel Hgood; [simpl in Hfuel; lia |].
  cbn [_padic_log_bound_loop].
  rewrite (long_op_in_range (b - 1)) by (unfold LONG_MIN, LONG_MAX in *; lia).
  cbn [mbind outcome_mbind outcome_bind].
  destruct (Z.leb_spec 2 (b - 1)) as [Hge | Hlt].
  - assert (Hbv0 : 0 <= (b - 1) * v) by nia.
    rewrite (long_op_in_range ((b - 1) * v)) by (unfold LONG_MIN, LONG_MAX in *; lia).
    cbn [mbind outcome_mbind outcome_bind].
    pose proof (n_clog_spec p ltac:(lia) (b - 1) Hge) as (HC1 & _).
    pose proof (n_clog_lt p ltac:(lia) (b - 1) Hge) as HC2.
    rewrite (to_ulong_small ((b - 1) * v)) by (apply long_max_ulong; lia).
    rewrite (to_ulong_small (b - 1)) by (apply long_max_ulong; lia).
    rewrite (to_ulong_small p) by (apply long_max_ulong; lia).
    rewrite long_sub_ulong by lia.
    destruct (Z.ltb_spec ((b - 1) * v - n_clog (b - 1) p) N) as [Hfound | Hpass].
    + exists b. replace (b - 1 + 1) with b by lia.
      rewrite long_op_in_range by (unfold LONG_MIN, LONG_MAX in *; lia).
      split; [reflexivity |]. split; [lia | exact Hgood].
    + apply IH.
      * lia.
      * nia.
      * rewrite Nat2Z.inj_succ in Hfuel. lia.
      * intros i Hi. destruct (Z.eq_dec i (b - 1)) as [-> | Hne].
        -- pose proof (ord_p_le_clog p ltac:(lia) (b - 1) Hge). lia.
        -- apply Hgood. lia.
  - exists 2. split; [reflexivity |]. split; [lia |].
    intros i Hi. apply Hgood. lia.
Qed.

Lemma log_bound_loop_step (p v N : Z) (fuel : nat) (b : Z) :
  _padic_log_bound_loop (S fuel) b v N p =
    (b' ← long_op (b - 1);
     if 2 <=? b' then
       bv ← long_op (b' * v);
       let t := to_long (ulong_sub (to_ulong bv) (n_clog (to_ulong b') (to_ulong p))) in
       if t <? N then long_op (b' + 1) else _padic_log_bound_loop fuel b' v N p
     else Returns 2).
Proof. reflexivity. Qed.

(* the countdown ends on every input: the fuel the model gives it is
   never used up *)
Lemma log_bound_loop_fuel (p v N : Z) (fuel : nat) (b : Z) :
  b <= Z.of_nat fuel -> _padic_log_bound_loop (S fuel) b v N p <> OutOfFuel.
Proof.
  revert b. induction fuel as [|fuel IH]; intros b Hfuel;
    rewrite log_bound_loop_step;
    (destruct (long_op_cases (b - 1)) as [-> | ->];
       cbn [mbind outcome_mbind outcome_bind]; [| discriminate]);
    (destruct (Z.leb_spec 2 (b - 1)); [| discriminate]).
  - simpl in Hfuel. lia.
  - destruct (long_op_cases ((b - 1) * v)) as [-> | ->];
      cbn [mbind outcome_mbind outcome_bind]; [| discriminate].
    destruct (_ <? N).
    + destruct (long_op_cases (b - 1 + 1)) as [-> | ->]; discriminate.
    + apply IH. rewrite Nat2Z.inj_succ in Hfuel. lia.
Qed.

Lemma padic_log_bound_terminates (v N p : Z) : _padic_log_bound v N p <> OutOfFuel.
Proof.
  unfold _padic_log_bound.
  destruct (N >=? _); [discriminate |].
  destruct (fmpz_fits_si p).
  - destruct (long_op_cases (v - 1)) as [-> | ->];
      cbn [mbind outcome_mbind outcome_bind]; [| discriminate].
    unfold ulong_div. destruct (to_ulong v =? 0);
      cbn [mbind outcome_mbind outcome_bind]; [discriminate |].
    apply log_bound_loop_fuel.
    match goal with |- ?b <= _ => generalize b end. intros b. lia.
  - destruct (long_op_cases (N + v)) as [-> | ->];
      cbn [mbind outcome_mbind outcome_bind]; [| discriminate].
    destruct (long_op_cases (N + v - 1)) as [-> | ->];
      cbn [mbind outcome_mbind outcome_bind]; [| discriminate].
    unfold long_div. destruct (v =? 0); [discriminate |].
    destruct (_ && _); discriminate.
Qed.

Lemma ceil_div_bound (s v : Z) : 1 <= v -> 0 <= s -> s - v + 1 <= s / v * v <= s.
Proof.
  intros Hv Hs. pose proof (Z.div_mod s v ltac:(lia)) as Hdm.
  pose proof (Z.mod_pos_bound s v ltac:(lia)). nia.
Qed.

Lemma padic_log_bound_small_prime (v N p : Z) :
  2 <= p <= LONG_MAX -> 1 <= N < 2 ^ (FLINT_BITS - 2) -> 1 <= v < N ->
  exists b, _padic_log_bound v N p = Returns b /\ 2 <= b /\
            forall i, b <= i -> N <= i * v - ord_p p i.
Proof using bits_cases.
  intros Hp HN Hv.
  destruct (word_sizes bits_cases) as (W & HW & HW2 & HW1 & HW0).
  assert (Hmax : LONG_MAX = 2 * W - 1) by (unfold LONG_MAX; lia).
  assert (Hmin : LONG_MIN = - (2 * W)) by (unfold LONG_MIN; lia).
  unfold _padic_log_bound.
  rewrite (shiftl_one_bits bits_cases).
  destruct (Z.geb_spec N (2 ^ (FLINT_BITS - 2))) as [? | _]; [lia |].
  unfold fmpz_fits_si.
  destruct (Z.leb_spec LONG_MIN p), (Z.leb_spec p LONG_MAX); try lia. cbn [andb].
  destruct (n_flog_spec p ltac:(lia) v ltac:(lia)) as (Hf0 & _).
  pose proof (n_flog_lt p ltac:(lia) v ltac:(lia)) as Hf1.
  rewrite (to_ulong_small N), (to_ulong_small v), (to_ulong_small p)
    by (apply long_max_ulong; lia).
  rewrite long_sub_ulong by lia.
  set (c := N - n_flog v p).
  assert (Hc : 2 <= c <= N) by (unfold c; lia).
  rewrite (to_ulong_small c) by (apply long_max_ulong; lia).
  destruct (n_clog_spec p ltac:(lia) c ltac:(lia)) as (HC1 & _).
  pose proof (n_clog_lt p ltac:(lia) c ltac:(lia)) as HC2.
  set (C := n_clog c p) in *.
  rewrite long_op_in_range by lia. cbn [mbind outcome_mbind outcome_bind].
  rewrite (to_ulong_small (v - 1)) by (apply long_max_ulong; lia).
  unfold ulong_add.
  rewrite (to_ulong_small (c + C)) by lia.
  rewrite (to_ulong_small (c + C + 1)) by lia.
  rewrite (to_ulong_small (c + C + 1 + (v - 1))) by lia.
  unfold ulong_div. destruct (Z.eqb_spec v 0) as [? | _]; [lia |].
  cbn [mbind outcome_mbind outcome_bind].
  pose proof (ceil_div_bound (c + C + 1 + (v - 1)) v ltac:(lia) ltac:(lia)) as Hq.
  set (q := (c + C + 1 + (v - 1)) / v) in *.
  assert (Hq1 : 1 <= q) by nia.
  assert (Hq2 : q <= 2 * N) by nia.
  rewrite (to_long_small bits_cases q) by lia.
  apply log_bound_loop_correct; try lia.
  intros i Hi.
  destruct (ord_p_spec p ltac:(lia) i ltac:(lia)) as (Hk & Hd & _).
  pose proof (series_tail_bound p v N ltac:(lia) Hv q ltac:(fold c; fold C; lia)
                i (ord_p p i) Hi Hk Hd).
  lia.
Qed.

Lemma padic_log_bound_large_prime (v N p : Z) :
  LONG_MAX < p -> 1 <= N < 2 ^ (FLINT_BITS - 2) -> 1 <= v < N ->
  exists b, _padic_log_bound v N p = Returns b /\ 2 <= b /\
            forall i, b <= i -> N <= i * v - ord_p p i.
Proof using bits_cases.
  intros Hp HN Hv.
  destruct (word_sizes bits_cases) as (W & HW & HW2 & HW1 & HW0).
  assert (Hmax : LONG_MAX = 2 * W - 1) by (unfold LONG_MAX; lia).
  assert (Hmin : LONG_MIN = - (2 * W)) by (unfold LONG_MIN; lia).
  unfold _padic_log_bound.
  rewrite (shiftl_one_bits bits_cases).
  destruct (Z.geb_spec N (2 ^ (FLINT_BITS - 2))) as [? | _]; [lia |].
  unfold fmpz_fits_si.
  destruct (Z.leb_spec LONG_MIN p), (Z.leb_spec p LONG_MAX); try lia. cbn [andb].
  rewrite long_op_in_range by lia. cbn [mbind outcome_mbind outcome_bind].
  rewrite long_op_in_range by lia. cbn [mbind outcome_mbind outcome_bind].
  unfold long_div. destruct (Z.eqb_spec v 0) as [? | _]; [lia |].
  destruct (Z.eqb_spec (N + v - 1) LONG_MIN) as [? | _]; [lia |]. cbn [andb].
  rewrite Z.quot_div_nonneg by lia.
  pose proof (ceil_div_bound (N + v - 1) v ltac:(lia) ltac:(lia)) as Hq.
  set (q := (N + v - 1) / v) in *.
  exists q. split; [reflexivity |]. split; [nia |].
  intros i Hi.
  destruct (ord_p_spec p ltac:(lia) i ltac:(nia)) as (Hk & Hd & _).
  pose proof (series_tail_bound_large p v N ltac:(lia) Hv q ltac:(lia) ltac:(lia)
                i (ord_p p i) Hi Hk Hd).
  lia.
Qed.

(** C9. For a prime p, 1 <= N < 2^(FLINT_BITS-2) and 1 <= v < N (with
    2 <= v when p = 2), [_padic_log_bound] returns, without overflow and
    after finitely many steps, a bound b >= 2 such that
    i*v - ord_p(i) >= N for all i >= b; for N >= 2^(FLINT_BITS-2) it
    aborts. *)
Theorem padic_log_bound_correct (v N p : Z) :
  (Z.prime p -> 1 <= N < 2 ^ (FLINT_BITS - 2) -> 1 <= v < N -> (p = 2 -> 2 <= v) ->
   exists b, _padic_log_bound v N p = Returns b /\ 2 <= b /\
             forall i, b <= i -> N <= i * v - ord_p p i)
  /\ (2 ^ (FLINT_BITS - 2) <= N -> _padic_log_bound v N p = Aborts).
Proof using bits_cases.
  split.
  - intros Hprime HN Hv _.
    assert (Hp : 2 <= p) by (apply Z.prime_ge_2 in Hprime; lia).
    destruct (Z_le_gt_dec p LONG_MAX) as [Hsmall | Hlarge].
    + apply padic_log_bound_small_prime; [lia | exact HN | exact Hv].
    + apply padic_log_bound_large_prime; [lia | exact HN | exact Hv].
  - intros HN. unfold _padic_log_bound.
    rewrite (shiftl_one_bits bits_cases).
    destruct (Z.geb_spec N (2 ^ (FLINT_BITS - 2))) as [_ | ?]; [reflexivity | lia].
Qed.
End log_bound.

Lemma padic_log_bound_correct_witness :
  (exists b, _padic_log_bound (cfg := flint64) 2 10 2 = Returns b /\ 2 <= b /\
             forall i, b <= i -> 10 <= i * 2 - ord_p 2 i)
  /\ _padic_log_bound (cfg := flint64) 5 (2 ^ 62) 3 = Aborts.
Proof.
  pose proof (padic_log_bound_correct (cfg := flint64) (or_intror eq_refl)) as Hthm.
  split.
  - apply (proj1 (Hthm 2 10 2)).
    + exact Z.prime_2.
    + vm_compute. split; [discriminate | reflexivity].
    + lia.
    + lia.
  - apply (proj2 (Hthm 5 (2 ^ 62) 3)). vm_compute. discriminate.
Defined.

(** ** padic/log.c: [padic_log] *)

Section padic_log_facts.
Context {cfg : flint_config} {pe : padic_externals}.

(* the dispatch of [_padic_log] divides by the bit count of p *)
Lemma padic_log_series_returns (y v p N : Z) :
  to_long (fmpz_bits p) <> 0 -> exists z, _padic_log y v p N = Returns z.
Proof.
  intros Hbits. unfold _padic_log, long_div.
  destruct (Z.eqb_spec (to_long (fmpz_bits p)) 0) as [? | _]; [contradiction |].
  assert (Hmin : Z.shiftl 1 9 <> LONG_MIN).
  { unfold LONG_MIN. change (Z.shiftl 1 9) with 512.
    pose proof (Z.pow_nonneg 2 (FLINT_BITS - 1)). lia. }
  destruct (Z.eqb_spec (Z.shiftl 1 9) LONG_MIN) as [? | _]; [contradiction |].
  cbn [andb mbind outcome_mbind outcome_bind].
  destruct (N <? _); eexists; reflexivity.
Qed.

Lemma padic_log_series_nonzero_code (y v p N : Z) (k : Z -> outcome (Z * padic_struct)) :
  (forall u, exists r, k u = Returns (1, r)) ->
  forall r, (_padic_log y v p N ≫= k) <> Returns (0, r).
Proof.
  intros Hk r. destruct (_padic_log y v p N) as [u | | |];
    cbn [mbind outcome_mbind outcome_bind]; try discriminate.
  destruct (Hk u) as (r' & ->). intros [=].
Qed.

(* the five paths through [padic_log] *)
Lemma padic_log_negative_val (rop op : padic_struct) (ctx : padic_ctx_struct) :
  padic_val op < 0 -> padic_log rop op ctx = Returns (0, rop).
Proof.
  intros Hneg. unfold padic_log.
  destruct (Z.ltb_spec (padic_val op) 0); [reflexivity | lia].
Qed.

Lemma padic_log_one (rop op : padic_struct) (ctx : padic_ctx_struct) :
  0 <= padic_val op -> 1 - padic_get_fmpz op ctx = 0 ->
  padic_log rop op ctx = Returns (1, padic_zero rop).
Proof.
  intros Hval Hy. unfold padic_log.
  destruct (Z.ltb_spec (padic_val op) 0); [lia |].
  destruct (Z.eqb_spec (- (padic_get_fmpz op ctx - 1)) 0); [reflexivity | lia].
Qed.

Lemma padic_log_other (rop op : padic_struct) (ctx : padic_ctx_struct) :
  let y := 1 - padic_get_fmpz op ctx in
  let v := snd (fmpz_remove y (ctx_p ctx)) in
  0 <= padic_val op -> y <> 0 ->
  padic_log rop op ctx =
    if (v >=? 2) || (negb (ctx_p ctx =? 2) && (v >=? 1)) then
      if v >=? ctx_N ctx then Returns (1, padic_zero rop)
      else
        u ← _padic_log y v (ctx_p ctx) (ctx_N ctx);
        Returns (1, _padic_canonicalise {| padic_unit := u; padic_val := 0 |} ctx)
    else Returns (0, rop).
Proof.
  intros y v Hval Hy. unfold padic_log.
  destruct (Z.ltb_spec (padic_val op) 0); [lia |].
  replace (- (padic_get_fmpz op ctx - 1)) with y by (unfold y; lia).
  destruct (Z.eqb_spec y 0); [contradiction |]. reflexivity.
Qed.

(** C8. [padic_log] returns 0 exactly when the series does not converge:
    op has negative valuation, or y = 1 - op is non-zero with valuation
    v < 1 for p other than 2 and v < 2 for p = 2; rop is then unchanged.
    In the other cases it returns 1, and the result is zero when op = 1
    or v >= N. *)
Theorem padic_log_return_value (rop op : padic_struct) (ctx : padic_ctx_struct) :
  let p := ctx_p ctx in
  let N := ctx_N ctx in
  let y := 1 - padic_get_fmpz op ctx in
  let v := snd (fmpz_remove y p) in
  let diverges :=
    padic_val op < 0 \/ (y <> 0 /\ ((p <> 2 /\ v < 1) \/ (p = 2 /\ v < 2))) in
  (diverges -> padic_log rop op ctx = Returns (0, rop))
  /\ (forall r, padic_log rop op ctx = Returns (0, r) -> diverges /\ r = rop)
  /\ (~ diverges -> to_long (fmpz_bits p) <> 0 ->
      exists r, padic_log rop op ctx = Returns (1, r))
  /\ (0 <= padic_val op -> y = 0 ->
      padic_log rop op ctx = Returns (1, padic_zero rop))
  /\ (~ diverges -> y <> 0 -> N <= v ->
      padic_log rop op ctx = Returns (1, padic_zero rop)).
Proof.
  intros p N y v diverges.
  destruct (Z_lt_le_dec (padic_val op) 0) as [Hneg | Hval].
  { assert (Hd : diverges) by (left; exact Hneg).
    rewrite (padic_log_negative_val rop op ctx Hneg).
    split; [reflexivity |]. split; [intros r [= <-]; split; [exact Hd | reflexivity] |].
    split; [intros Hnd; contradiction |]. split; [lia |].
    intros Hnd; contradiction. }
  destruct (Z.eq_dec y 0) as [Hy0 | Hy0].
  { assert (Hd : ~ diverges) by (unfold diverges; lia).
    rewrite (padic_log_one rop op ctx Hval Hy0).
    split; [intros; contradiction |]. split; [intros r [=] |].
    split; [intros; eexists; reflexivity |]. split; [reflexivity |].
    contradiction. }
  rewrite (padic_log_other rop op ctx Hval Hy0). fold y p N. fold v.
  destruct (Z.geb_spec v 2) as [Hv2 | Hv2];
    destruct (Z.eqb_spec p 2) as [Hp2 | Hp2];
    destruct (Z.geb_spec v 1) as [Hv1 | Hv1];
    cbn [orb andb negb]; try lia.
  all: first
    [ assert (Hd : ~ diverges) by (unfold diverges; lia);
      destruct (Z.geb_spec v N) as [HvN | HvN];
      [ split; [intros; contradiction |]; split; [intros r [=] |];
        split; [intros; eexists; reflexivity |]; split; [contradiction |];
        reflexivity
      | split; [intros; contradiction |];
        split; [intros r Hr; exfalso; revert Hr;
                apply padic_log_series_nonzero_code; intros u; eexists; reflexivity |];
        split; [intros _ Hbits;
                destruct (padic_log_series_returns y v p N Hbits) as (z & ->);
                eexists; reflexivity |];
        split; [contradiction | lia] ]
    | assert (Hd : diverges) by (unfold diverges; lia);
      (split; [reflexivity |];
       split; [intros r [= <-]; split; [exact Hd | reflexivity] |];
       split; [intros; contradiction |]; split; [contradiction |];
       intros; contradiction) ].
Qed.
End padic_log_facts.

Lemma padic_log_return_value_witness :
  padic_log (cfg := flint64) (pe := test_padic)
    {| padic_unit := 5; padic_val := 3 |} {| padic_unit := 3; padic_val := 0 |}
    {| ctx_p := 2; ctx_N := 10 |}
  = Returns (0, {| padic_unit := 5; padic_val := 3 |})
  /\ exists r,
       padic_log (cfg := flint64) (pe := test_padic)
         {| padic_unit := 5; padic_val := 3 |} {| padic_unit := 4; padic_val := 0 |}
         {| ctx_p := 3; ctx_N := 10 |}
       = Returns (1, r).
Proof.
  split.
  - apply (proj1 (padic_log_return_value (cfg := flint64) (pe := test_padic)
                    {| padic_unit := 5; padic_val := 3 |}
                    {| padic_unit := 3; padic_val := 0 |}
                    {| ctx_p := 2; ctx_N := 10 |})).
    right. split; [vm_compute; discriminate |].
    right. split; [reflexivity | vm_compute; reflexivity].
  - apply (proj1 (proj2 (proj2 (padic_log_return_value (cfg := flint64) (pe := test_padic)
                    {| padic_unit := 5; padic_val := 3 |}
                    {| padic_unit := 4; padic_val := 0 |}
                    {| ctx_p := 3; ctx_N := 10 |})))).
    + intros [Hneg | (_ & [(_ & Hv) | (Hp & _)])].
      * vm_compute in Hneg. discriminate.
      * vm_compute in Hv. discriminate.
      * vm_compute in Hp. discriminate.
    + vm_compute. discriminate.
Defined.

(** ** Programs over a store *)

Section store_facts.
Context {O : Type}.
Implicit Types (h : gmap loc O) (l : loc) (o : O).

Lemma bind_returns {A B : Type} (m : prog O A) (k : A -> prog O B) h h' (x : A) :
  m h = Returns (x, h') -> (m ≫= k) h = k x h'.
Proof. intros Hm. unfold mbind, prog_bind. rewrite Hm. reflexivity. Qed.

Lemma bind_undefined {A B : Type} (m : prog O A) (k : A -> prog O B) h :
  m h = Undefined -> (m ≫= k) h = Undefined.
Proof. intros Hm. unfold mbind, prog_bind. rewrite Hm. reflexivity. Qed.

Lemma load_at l h o : h !! l = Some o -> load l h = Returns (o, h).
Proof. intros Hl. unfold load. rewrite Hl. reflexivity. Qed.

Lemma store_at l o o' h : h !! l = Some o' -> store l o h = Returns (tt, <[l := o]> h).
Proof. intros Hl. unfold store. rewrite Hl. reflexivity. Qed.

Lemma free_at l o h : h !! l = Some o -> free l h = Returns (tt, delete l h).
Proof. intros Hl. unfold free. rewrite Hl. reflexivity. Qed.

(* the laws of bind, at a store *)
Lemma bind_ext {A B : Type} (m : prog O A) (k1 k2 : A -> prog O B) h :
  (forall x h', k1 x h' = k2 x h') -> (m ≫= k1) h = (m ≫= k2) h.
Proof.
  intros Hk. unfold mbind, prog_bind.
  destruct (m h) as [[x h'] | | |]; [apply Hk | reflexivity ..].
Qed.

Lemma bind_ext_l {A B : Type} (m1 m2 : prog O A) (k : A -> prog O B) h :
  m1 h = m2 h -> (m1 ≫= k) h = (m2 ≫= k) h.
Proof. intros Hm. unfold mbind, prog_bind. rewrite Hm. reflexivity. Qed.

Lemma bind_assoc {A B C : Type} (m : prog O A) (k : A -> prog O B)
    (k' : B -> prog O C) h :
  ((m ≫= k) ≫= k') h = (m ≫= (fun x => k x ≫= k')) h.
Proof.
  unfold mbind, prog_bind.
  destruct (m h) as [[x h'] | | |]; reflexivity.
Qed.
End store_facts.

(** ** ca/check_equal.c *)

Section ca_check_equal_facts.
Context {ce : ca_externals}.

Lemma load_ca_at (l : loc) (h : gmap loc ca_object) (x : ca_struct) :
  h !! l = Some (obj_ca x) -> load_ca l h = Returns (x, h).
Proof.
  intros Hl. unfold load_ca. rewrite (bind_returns _ _ _ _ _ (load_at l h _ Hl)).
  reflexivity.
Qed.

(** C10. With both operands in the field QQ, [ca_check_equal] returns
    T_TRUE when the two rationals are equal and T_FALSE when they are
    not; with an operand in another field it returns T_UNKNOWN.  The
    store, which holds x, y and the context, is returned as it was. *)
Theorem ca_check_equal_decides (x y ctx : loc) (h : gmap loc ca_object)
    (xs ys : ca_struct) :
  h !! x = Some (obj_ca xs) -> h !! y = Some (obj_ca ys) ->
  (ca_field xs = CA_FIELD_ID_QQ -> ca_field ys = CA_FIELD_ID_QQ ->
   forall qx qy, ca_elem_of xs = elem_q qx -> ca_elem_of ys = elem_q qy ->
     (Qeq qx qy -> ca_check_equal x y ctx h = Returns (T_TRUE, h)) /\
     (~ Qeq qx qy -> ca_check_equal x y ctx h = Returns (T_FALSE, h)))
  /\ (~ (ca_field xs = CA_FIELD_ID_QQ /\ ca_field ys = CA_FIELD_ID_QQ) ->
      ca_check_equal x y ctx h = Returns (T_UNKNOWN, h)).
Proof.
  intros Hx Hy. unfold ca_check_equal.
  rewrite (bind_returns _ _ _ _ _ (load_ca_at x h xs Hx)).
  split.
  - intros Hfx Hfy qx qy Hqx Hqy.
    destruct (Z.eqb_spec (ca_field xs) CA_FIELD_ID_QQ) as [_ | ?]; [| contradiction].
    rewrite (bind_returns _ _ _ _ _ (load_ca_at y h ys Hy)).
    destruct (Z.eqb_spec (ca_field ys) CA_FIELD_ID_QQ) as [_ | ?]; [| contradiction].
    unfold CA_FMPQ. rewrite Hqx, Hqy.
    unfold mbind, prog_bind, mret, prog_ret, fmpq_equal.
    split; intros Heq.
    + apply Qeq_bool_iff in Heq. rewrite Heq. reflexivity.
    + destruct (Qeq_bool qx qy) eqn:E; [| reflexivity].
      exfalso. apply Heq, Qeq_bool_iff, E.
  - intros Hnot.
    destruct (Z.eqb_spec (ca_field xs) CA_FIELD_ID_QQ) as [Hfx | _]; [| reflexivity].
    rewrite (bind_returns _ _ _ _ _ (load_ca_at y h ys Hy)).
    destruct (Z.eqb_spec (ca_field ys) CA_FIELD_ID_QQ) as [Hfy | _]; [| reflexivity].
    exfalso. apply Hnot. split; assumption.
Qed.
End ca_check_equal_facts.

Lemma ca_check_equal_decides_witness :
  ca_check_equal (ce := test_ca) 1%positive 2%positive 4%positive test_ca_store
    = Returns (T_TRUE, test_ca_store)
  /\ ca_check_equal (ce := test_ca) 1%positive 3%positive 4%positive test_ca_store
     = Returns (T_UNKNOWN, test_ca_store).
Proof.
  split.
  - refine (proj1 (proj1 (ca_check_equal_decides (ce := test_ca) 1%positive 2%positive
                     4%positive test_ca_store _ _ eq_refl eq_refl)
                     eq_refl eq_refl (1 # 2)%Q (2 # 4)%Q eq_refl eq_refl) _).
    reflexivity.
  - refine (proj2 (ca_check_equal_decides (ce := test_ca) 1%positive 3%positive
                     4%positive test_ca_store _ _ eq_refl eq_refl) _).
    intros [_ Hf]. vm_compute in Hf. discriminate.
Defined.

(** ** acb_theta/dist_a0.c *)

Lemma same_lengths_replicate {A : Type} (m : list (list A)) (n : nat) :
  length <$> m = replicate (length m) n <->
  forallb (fun row => Z.of_nat (length row) =? Z.of_nat n) m = true.
Proof.
  induction m as [| row m IH]; [split; reflexivity |].
  rewrite fmap_cons. cbn [length replicate forallb].
  rewrite andb_true_iff, Z.eqb_eq, <- IH. split.
  - intros [= Hr Hm]. split; [lia | exact Hm].
  - intros [Hr Hm]. f_equal; [lia | exact Hm].
Qed.

(* a matrix has the dimensions of a g x g one when it is g x g *)
Lemma same_dims_replicate {A B : Type} (m : list (list A)) (g : Z) (x : B) :
  g = Z.of_nat (length m) ->
  same_dims m (replicate (Z.to_nat g) (replicate (Z.to_nat g) x)) = has_dims g g m.
Proof.
  intros ->. rewrite Nat2Z.id. unfold same_dims, has_dims.
  rewrite fmap_replicate, length_replicate, Z.eqb_refl. cbn [andb].
  apply eq_true_iff_eq. rewrite bool_decide_eq_true.
  apply same_lengths_replicate.
Qed.

Section typed_loads.
Context {sub : arb_substrate}.
Implicit Types (h : gmap loc theta_object) (l : loc).

Lemma load_arb_vec_at l h xs :
  h !! l = Some (obj_arb_vec xs) -> load_arb_vec l h = Returns (xs, h).
Proof.
  intros Hl. unfold load_arb_vec.
  rewrite (bind_returns _ _ _ _ _ (load_at l h _ Hl)). reflexivity.
Qed.

Lemma load_arb_mat_at l h m :
  h !! l = Some (obj_arb_mat m) -> load_arb_mat l h = Returns (m, h).
Proof.
  intros Hl. unfold load_arb_mat.
  rewrite (bind_returns _ _ _ _ _ (load_at l h _ Hl)). reflexivity.
Qed.

Lemma load_acb_vec_at l h zs :
  h !! l = Some (obj_acb_vec zs) -> load_acb_vec l h = Returns (zs, h).
Proof.
  intros Hl. unfold load_acb_vec.
  rewrite (bind_returns _ _ _ _ _ (load_at l h _ Hl)). reflexivity.
Qed.

Lemma load_acb_mat_at l h m :
  h !! l = Some (obj_acb_mat m) -> load_acb_mat l h = Returns (m, h).
Proof.
  intros Hl. unfold load_acb_mat.
  rewrite (bind_returns _ _ _ _ _ (load_at l h _ Hl)). reflexivity.
Qed.

Lemma write_entries_length (f : Z -> arb) (l : list Z) (D : list arb) :
  length (write_entries f D l) = length D.
Proof.
  unfold write_entries. revert D. induction l as [| a l IH]; intros D; [reflexivity |].
  cbn [foldl]. rewrite IH. apply length_insert.
Qed.

(* entry i after the writes: the value of index i if i was written *)
Lemma write_entries_lookup (f : Z -> arb) (l : list Z) (D : list arb) (i : nat) :
  Forall (fun a => 0 <= a) l ->
  write_entries f D l !! i =
    if decide (Z.of_nat i ∈ l)
    then match D !! i with Some _ => Some (f (Z.of_nat i)) | None => None end
    else D !! i.
Proof.
  unfold write_entries. revert D. induction l as [| a l IH]; intros D Hl.
  - cbn [foldl]. destruct (decide _) as [Hin | _]; [| reflexivity].
    apply elem_of_nil in Hin. contradiction.
  - apply Forall_cons in Hl as [Ha Hl]. cbn [foldl]. rewrite (IH _ Hl).
    rewrite list_lookup_insert.
    destruct (decide (Z.of_nat i = a)) as [<- | Hne].
    + rewrite Nat2Z.id.
      destruct (decide (Z.of_nat i ∈ Z.of_nat i :: l)) as [_ | Hnot];
        [| exfalso; apply Hnot; left].
      destruct (decide (i = i /\ (i < length D)%nat)) as [[_ Hlt] | Hge].
      * destruct (lookup_lt_is_Some_2 D i Hlt) as [d ->].
        destruct (decide _); reflexivity.
      * rewrite (lookup_ge_None_2 D i) by lia. destruct (decide _); reflexivity.
    + destruct (decide (Z.to_nat a = i /\ (Z.to_nat a < length D)%nat)) as [[Heq _] | _];
        [lia |].
      destruct (decide (Z.of_nat i ∈ l)) as [Hin | Hnin].
      * destruct (decide (Z.of_nat i ∈ a :: l)) as [_ | Hnot]; [reflexivity |].
        exfalso. apply Hnot. right. exact Hin.
      * destruct (decide (Z.of_nat i ∈ a :: l)) as [Hin | _]; [| reflexivity].
        apply elem_of_cons in Hin as [? | ?]; [congruence | contradiction].
Qed.

Lemma in_bounds_nonneg (n : nat) (l : list Z) :
  forallb (in_bounds n) l = true -> Forall (fun a => 0 <= a) l.
Proof.
  intros Hall. apply Forall_forall. intros a Ha.
  assert (Hb : in_bounds n a = true).
  { rewrite forallb_forall in Hall. apply Hall. apply list_elem_of_In. exact Ha. }
  unfold in_bounds in Hb. apply andb_true_iff in Hb as [Hb _]. lia.
Qed.

Lemma in_bounds_perm (n : nat) (l1 l2 : list Z) :
  l1 ≡ₚ l2 -> forallb (in_bounds n) l1 = forallb (in_bounds n) l2.
Proof.
  intros Hp. induction Hp as [| a l1 l2 _ IH | a b l | l1 l2 l3 _ IH1 _ IH2].
  - reflexivity.
  - cbn [forallb]. rewrite IH. reflexivity.
  - cbn [forallb]. destruct (in_bounds n a), (in_bounds n b); reflexivity.
  - congruence.
Qed.

(* the order of the writes does not matter *)
Lemma write_entries_perm (f : Z -> arb) (D : list arb) (l1 l2 : list Z) :
  Forall (fun a => 0 <= a) l1 -> l1 ≡ₚ l2 ->
  write_entries f D l1 = write_entries f D l2.
Proof.
  intros Hl1 Hp.
  assert (Hl2 : Forall (fun a => 0 <= a) l2) by (rewrite <- Hp; exact Hl1).
  apply list_eq. intros i.
  rewrite (write_entries_lookup f l1 D i Hl1), (write_entries_lookup f l2 D i Hl2).
  destruct (decide (Z.of_nat i ∈ l1)) as [H1 | H1];
    destruct (decide (Z.of_nat i ∈ l2)) as [H2 | H2]; try reflexivity.
  - exfalso. apply H2. rewrite <- Hp. exact H1.
  - exfalso. apply H1. rewrite Hp. exact H2.
Qed.

(* the ascending loop over [0, n) fills the first n entries *)
Lemma write_entries_ascending (f : Z -> arb) (D : list arb) (n : Z) :
  0 <= n <= Z.of_nat (length D) ->
  write_entries f D (seqZ 0 n) = (f <$> seqZ 0 n) ++ drop (Z.to_nat n) D.
Proof.
  intros Hn. apply list_eq. intros i.
  rewrite write_entries_lookup by (apply Forall_seqZ; lia).
  destruct (decide (Z.of_nat i < n)) as [Hlt | Hge].
  - rewrite lookup_app_l by (rewrite length_fmap, length_seqZ; lia).
    rewrite list_lookup_fmap, lookup_seqZ_lt by lia. cbn [fmap option_fmap option_map].
    destruct (decide (Z.of_nat i ∈ seqZ 0 n)) as [_ | Hnot].
    + destruct (lookup_lt_is_Some_2 D i ltac:(lia)) as [d ->]. reflexivity.
    + exfalso. apply Hnot. apply elem_of_seqZ. lia.
  - rewrite lookup_app_r by (rewrite length_fmap, length_seqZ; lia).
    rewrite length_fmap, length_seqZ, lookup_drop.
    replace (Z.to_nat n + (i - Z.to_nat n))%nat with i by lia.
    destruct (decide (Z.of_nat i ∈ seqZ 0 n)) as [Hin | _]; [| reflexivity].
    apply elem_of_seqZ in Hin. lia.
Qed.

Lemma in_bounds_ascending (m : nat) (n : Z) :
  n <= Z.of_nat m -> forallb (in_bounds m) (seqZ 0 n) = true.
Proof.
  intros Hn. apply forallb_forall. intros a Ha.
  apply list_elem_of_In, elem_of_seqZ in Ha.
  unfold in_bounds. apply andb_true_iff. split; lia.
Qed.

(* writing the same entries a second time changes nothing *)
Lemma write_entries_idempotent (f : Z -> arb) (D : list arb) (l : list Z) :
  Forall (fun a => 0 <= a) l ->
  write_entries f (write_entries f D l) l = write_entries f D l.
Proof.
  intros Hl. apply list_eq. intros i.
  rewrite (write_entries_lookup f l (write_entries f D l) i Hl).
  destruct (decide (Z.of_nat i ∈ l)) as [Hin | _]; [| reflexivity].
  rewrite (write_entries_lookup f l D i Hl).
  destruct (decide (Z.of_nat i ∈ l)); [| contradiction].
  destruct (D !! i); reflexivity.
Qed.
End typed_loads.

Ltac lookup_cases :=
  rewrite ?lookup_delete, ?lookup_insert; repeat case_decide; subst; congruence.
Ltac map_cases := apply map_eq; intros ?; lookup_cases.

Section working_store_facts.
Context {sub : arb_substrate}.
Variables (h : gmap loc theta_object) (dist z tau lY lC lv lw : loc).
Variables (t : list (list acb)) (zs : list acb) (D0 : list arb).
Hypothesis Htau : h !! tau = Some (obj_acb_mat t).
Hypothesis Hz : h !! z = Some (obj_acb_vec zs).
Hypothesis Hdist : h !! dist = Some (obj_arb_vec D0).
Hypothesis HlY : h !! lY = None.
Hypothesis HlC : h !! lC = None.
Hypothesis Hlv : h !! lv = None.
Hypothesis Hlw : h !! lw = None.
Hypothesis Hdistinct : NoDup [lY; lC; lv; lw].

Local Abbreviation WS := (working_store h dist lY lC lv lw).

Lemma scratch_distinct :
  lY <> lC /\ lY <> lv /\ lY <> lw /\ lC <> lv /\ lC <> lw /\ lv <> lw /\
  dist <> lY /\ dist <> lC /\ dist <> lv /\ dist <> lw /\
  tau <> lY /\ tau <> lC /\ tau <> lv /\ tau <> lw /\ tau <> dist /\
  z <> lY /\ z <> lC /\ z <> lv /\ z <> lw /\ z <> dist.
Proof using Htau Hz Hdist HlY HlC Hlv Hlw Hdistinct.
  apply NoDup_cons in Hdistinct as [N1 Hd1].
  apply NoDup_cons in Hd1 as [N2 Hd2].
  apply NoDup_cons in Hd2 as [N3 _].
  apply not_elem_of_cons in N1 as (? & N1).
  apply not_elem_of_cons in N1 as (? & N1).
  apply not_elem_of_cons in N1 as (? & _).
  apply not_elem_of_cons in N2 as (? & N2).
  apply not_elem_of_cons in N2 as (? & _).
  apply not_elem_of_cons in N3 as (? & _).
  repeat split; intros ->; congruence.
Qed.

Lemma ws_lookup_w D Y C V W : WS D Y C V W !! lw = Some (obj_arb_vec W).
Proof. unfold working_store. apply lookup_insert_eq. Qed.

Lemma ws_lookup_v D Y C V W : WS D Y C V W !! lv = Some (obj_arb_vec V).
Proof using Htau Hz Hdist HlY HlC Hlv Hlw Hdistinct.
  pose proof scratch_distinct as Hd; repeat (destruct Hd as [? Hd]).
  unfold working_store. lookup_cases.
Qed.

Lemma ws_lookup_C D Y C V W : WS D Y C V W !! lC = Some (obj_arb_mat C).
Proof using Htau Hz Hdist HlY HlC Hlv Hlw Hdistinct.
  pose proof scratch_distinct as Hd; repeat (destruct Hd as [? Hd]).
  unfold working_store. lookup_cases.
Qed.

Lemma ws_lookup_Y D Y C V W : WS D Y C V W !! lY = Some (obj_arb_mat Y).
Proof using Htau Hz Hdist HlY HlC Hlv Hlw Hdistinct.
  pose proof scratch_distinct as Hd; repeat (destruct Hd as [? Hd]).
  unfold working_store. lookup_cases.
Qed.

Lemma ws_lookup_dist D Y C V W : WS D Y C V W !! dist = Some (obj_arb_vec D).
Proof using Htau Hz Hdist HlY HlC Hlv Hlw Hdistinct.
  pose proof scratch_distinct as Hd; repeat (destruct Hd as [? Hd]).
  unfold working_store. lookup_cases.
Qed.

Lemma ws_lookup_tau D Y C V W : WS D Y C V W !! tau = Some (obj_acb_mat t).
Proof using Htau Hz Hdist HlY HlC Hlv Hlw Hdistinct.
  pose proof scratch_distinct as Hd; repeat (destruct Hd as [? Hd]).
  unfold working_store. lookup_cases.
Qed.

Lemma ws_lookup_z D Y C V W : WS D Y C V W !! z = Some (obj_acb_vec zs).
Proof using Htau Hz Hdist HlY HlC Hlv Hlw Hdistinct.
  pose proof scratch_distinct as Hd; repeat (destruct Hd as [? Hd]).
  unfold working_store. lookup_cases.
Qed.

Lemma ws_store_w D Y C V W W' :
  <[lw := obj_arb_vec W']> (WS D Y C V W) = WS D Y C V W'.
Proof. unfold working_store. apply insert_insert_eq. Qed.

Lemma ws_store_v D Y C V W V' :
  <[lv := obj_arb_vec V']> (WS D Y C V W) = WS D Y C V' W.
Proof using Htau Hz Hdist HlY HlC Hlv Hlw Hdistinct.
  pose proof scratch_distinct as Hd; repeat (destruct Hd as [? Hd]).
  unfold working_store.
  map_cases.
Qed.

Lemma ws_store_C D Y C V W C' :
  <[lC := obj_arb_mat C']> (WS D Y C V W) = WS D Y C' V W.
Proof using Htau Hz Hdist HlY HlC Hlv Hlw Hdistinct.
  pose proof scratch_distinct as Hd; repeat (destruct Hd as [? Hd]).
  unfold working_store.
  map_cases.
Qed.

Lemma ws_store_Y D Y C V W Y' :
  <[lY := obj_arb_mat Y']> (WS D Y C V W) = WS D Y' C V W.
Proof using Htau Hz Hdist HlY HlC Hlv Hlw Hdistinct.
  pose proof scratch_distinct as Hd; repeat (destruct Hd as [? Hd]).
  unfold working_store.
  map_cases.
Qed.

Lemma ws_store_dist D Y C V W D' :
  <[dist := obj_arb_vec D']> (WS D Y C V W) = WS D' Y C V W.
Proof using Htau Hz Hdist HlY HlC Hlv Hlw Hdistinct.
  pose proof scratch_distinct as Hd; repeat (destruct Hd as [? Hd]).
  unfold working_store.
  map_cases.
Qed.

(* releasing the four scratch objects leaves the store of the caller
   with the distance array *)
Lemma ws_release D Y C V W :
  delete lw (delete lv (delete lC (delete lY (WS D Y C V W)))) =
  <[dist := obj_arb_vec D]> h.
Proof using Htau Hz Hdist HlY HlC Hlv Hlw Hdistinct.
  pose proof scratch_distinct as Hd; repeat (destruct Hd as [? Hd]).
  unfold working_store.
  map_cases.
Qed.

(** The calls of the function, run on a working store. *)

Lemma ws_acb_mat_get_imag D Y C V W :
  acb_mat_get_imag lY tau (WS D Y C V W)
  = if same_dims t Y
    then Returns (tt, WS D (acb_mat_get_imag_fn t) C V W)
    else Undefined.
Proof using Htau Hz Hdist HlY HlC Hlv Hlw Hdistinct.
  unfold acb_mat_get_imag.
  rewrite (bind_returns _ _ _ _ _ (load_acb_mat_at _ _ _ (ws_lookup_tau D Y C V W))).
  rewrite (bind_returns _ _ _ _ _ (load_arb_mat_at _ _ _ (ws_lookup_Y D Y C V W))).
  destruct (same_dims t Y); [| reflexivity].
  rewrite (store_at _ _ _ _ (ws_lookup_Y D Y C V W)), ws_store_Y. reflexivity.
Qed.

Lemma ws_arb_mat_inv prec D Y C V W :
  arb_mat_inv lY lY prec (WS D Y C V W)
  = Returns (fst (arb_mat_inv_fn Y prec), WS D (snd (arb_mat_inv_fn Y prec)) C V W).
Proof using Htau Hz Hdist HlY HlC Hlv Hlw Hdistinct.
  unfold arb_mat_inv.
  rewrite (bind_returns _ _ _ _ _ (load_arb_mat_at _ _ _ (ws_lookup_Y D Y C V W))).
  rewrite (bind_returns _ _ _ _ _ (load_arb_mat_at _ _ _ (ws_lookup_Y D Y C V W))).
  destruct (arb_mat_inv_fn Y prec) as [r x]. cbn [fst snd].
  rewrite (bind_returns _ _ _ _ _ (store_at _ _ _ _ (ws_lookup_Y D Y C V W))), ws_store_Y.
  reflexivity.
Qed.

Lemma ws_acb_theta_eld_cho prec D Y C V W :
  acb_theta_eld_cho lC tau prec (WS D Y C V W)
  = if same_dims t C
    then Returns (tt, WS D Y (acb_theta_eld_cho_fn t prec) V W)
    else Undefined.
Proof using Htau Hz Hdist HlY HlC Hlv Hlw Hdistinct.
  unfold acb_theta_eld_cho.
  rewrite (bind_returns _ _ _ _ _ (load_acb_mat_at _ _ _ (ws_lookup_tau D Y C V W))).
  rewrite (bind_returns _ _ _ _ _ (load_arb_mat_at _ _ _ (ws_lookup_C D Y C V W))).
  destruct (same_dims t C); [| reflexivity].
  rewrite (store_at _ _ _ _ (ws_lookup_C D Y C V W)), ws_store_C. reflexivity.
Qed.

Lemma ws_acb_vec_get_imag g D Y C V W :
  _acb_vec_get_imag lv z g (WS D Y C V W)
  = if g <=? Z.of_nat (length zs)
    then Returns (tt, WS D Y C (_acb_vec_get_imag_fn zs g) W)
    else Undefined.
Proof using Htau Hz Hdist HlY HlC Hlv Hlw Hdistinct.
  unfold _acb_vec_get_imag.
  rewrite (bind_returns _ _ _ _ _ (load_acb_vec_at _ _ _ (ws_lookup_z D Y C V W))).
  rewrite (bind_returns _ _ _ _ _ (load_arb_vec_at _ _ _ (ws_lookup_v D Y C V W))).
  destruct (g <=? Z.of_nat (length zs)); [| reflexivity].
  rewrite (store_at _ _ _ _ (ws_lookup_v D Y C V W)), ws_store_v. reflexivity.
Qed.

Lemma ws_mul_col_v prec D Y C V W :
  arb_mat_vector_mul_col lv lY lv prec (WS D Y C V W)
  = Returns (tt, WS D Y C (arb_mat_vector_mul_col_fn Y V prec) W).
Proof using Htau Hz Hdist HlY HlC Hlv Hlw Hdistinct.
  unfold arb_mat_vector_mul_col.
  rewrite (bind_returns _ _ _ _ _ (load_arb_mat_at _ _ _ (ws_lookup_Y D Y C V W))).
  rewrite (bind_returns _ _ _ _ _ (load_arb_vec_at _ _ _ (ws_lookup_v D Y C V W))).
  rewrite (bind_returns _ _ _ _ _ (load_arb_vec_at _ _ _ (ws_lookup_v D Y C V W))).
  rewrite (store_at _ _ _ _ (ws_lookup_v D Y C V W)), ws_store_v. reflexivity.
Qed.

Lemma ws_char_get_arb a g D Y C V W :
  acb_theta_char_get_arb lw a g (WS D Y C V W)
  = Returns (tt, WS D Y C V (acb_theta_char_get_arb_fn a g)).
Proof.
  unfold acb_theta_char_get_arb.
  rewrite (bind_returns _ _ _ _ _ (load_arb_vec_at _ _ _ (ws_lookup_w D Y C V W))).
  rewrite (store_at _ _ _ _ (ws_lookup_w D Y C V W)), ws_store_w. reflexivity.
Qed.

Lemma ws_vec_add g prec D Y C V W :
  _arb_vec_add lw lv lw g prec (WS D Y C V W)
  = Returns (tt, WS D Y C V (_arb_vec_add_fn V W g prec)).
Proof using Htau Hz Hdist HlY HlC Hlv Hlw Hdistinct.
  unfold _arb_vec_add.
  rewrite (bind_returns _ _ _ _ _ (load_arb_vec_at _ _ _ (ws_lookup_v D Y C V W))).
  rewrite (bind_returns _ _ _ _ _ (load_arb_vec_at _ _ _ (ws_lookup_w D Y C V W))).
  rewrite (bind_returns _ _ _ _ _ (load_arb_vec_at _ _ _ (ws_lookup_w D Y C V W))).
  rewrite (store_at _ _ _ _ (ws_lookup_w D Y C V W)), ws_store_w. reflexivity.
Qed.

Lemma ws_mul_col_w prec D Y C V W :
  arb_mat_vector_mul_col lw lC lw prec (WS D Y C V W)
  = Returns (tt, WS D Y C V (arb_mat_vector_mul_col_fn C W prec)).
Proof using Htau Hz Hdist HlY HlC Hlv Hlw Hdistinct.
  unfold arb_mat_vector_mul_col.
  rewrite (bind_returns _ _ _ _ _ (load_arb_mat_at _ _ _ (ws_lookup_C D Y C V W))).
  rewrite (bind_returns _ _ _ _ _ (load_arb_vec_at _ _ _ (ws_lookup_w D Y C V W))).
  rewrite (bind_returns _ _ _ _ _ (load_arb_vec_at _ _ _ (ws_lookup_w D Y C V W))).
  rewrite (store_at _ _ _ _ (ws_lookup_w D Y C V W)), ws_store_w. reflexivity.
Qed.

Lemma ws_dist_lat a prec D Y C V W :
  acb_theta_dist_lat dist a lw lC prec (WS D Y C V W)
  = if in_bounds (length D) a
    then Returns (tt, WS (<[Z.to_nat a := acb_theta_dist_lat_fn W C prec]> D) Y C V W)
    else Undefined.
Proof using Htau Hz Hdist HlY HlC Hlv Hlw Hdistinct.
  unfold acb_theta_dist_lat, in_bounds.
  rewrite (bind_returns _ _ _ _ _ (load_arb_vec_at _ _ _ (ws_lookup_w D Y C V W))).
  rewrite (bind_returns _ _ _ _ _ (load_arb_mat_at _ _ _ (ws_lookup_C D Y C V W))).
  rewrite (bind_returns _ _ _ _ _ (load_arb_vec_at _ _ _ (ws_lookup_dist D Y C V W))).
  destruct ((0 <=? a) && (a <? Z.of_nat (length D))); [| reflexivity].
  rewrite (store_at _ _ _ _ (ws_lookup_dist D Y C V W)), ws_store_dist. reflexivity.
Qed.

(* one iteration writes one entry and leaves its vector in w *)
Lemma ws_body a g prec D Y C V W :
  (acb_theta_char_get_arb lw a g ;;
   _arb_vec_add lw lv lw g prec ;;
   arb_mat_vector_mul_col lw lC lw prec ;;
   acb_theta_dist_lat dist a lw lC prec) (WS D Y C V W)
  = if in_bounds (length D) a
    then Returns (tt, WS (<[Z.to_nat a := characteristic_distance C V g prec a]> D) Y C V
                    (arb_mat_vector_mul_col_fn C
                       (_arb_vec_add_fn V (acb_theta_char_get_arb_fn a g) g prec) prec))
    else Undefined.
Proof using Htau Hz Hdist HlY HlC Hlv Hlw Hdistinct.
  rewrite (bind_returns _ _ _ _ _ (ws_char_get_arb a g D Y C V W)).
  rewrite (bind_returns _ _ _ _ _ (ws_vec_add g prec D Y C V _)).
  rewrite (bind_returns _ _ _ _ _ (ws_mul_col_w prec D Y C V _)).
  rewrite ws_dist_lat. reflexivity.
Qed.

Lemma ws_loop (l : list Z) g prec D Y C V W :
  let body := fun a =>
    acb_theta_char_get_arb lw a g ;;
    _arb_vec_add lw lv lw g prec ;;
    arb_mat_vector_mul_col lw lC lw prec ;;
    acb_theta_dist_lat dist a lw lC prec in
  if forallb (in_bounds (length D)) l
  then exists W', for_each l body (WS D Y C V W)
                  = Returns (tt, WS (write_entries (characteristic_distance C V g prec) D l)
                                   Y C V W')
  else for_each l body (WS D Y C V W) = Undefined.
Proof using Htau Hz Hdist HlY HlC Hlv Hlw Hdistinct.
  intros body. revert D W. induction l as [| a l IH]; intros D W.
  - exists W. reflexivity.
  - cbn [forallb for_each]. unfold write_entries. cbn [foldl].
    fold (write_entries (characteristic_distance C V g prec)).
    destruct (in_bounds (length D) a) eqn:Ha; cbn [andb].
    + specialize (IH (<[Z.to_nat a := characteristic_distance C V g prec a]> D)
                    (arb_mat_vector_mul_col_fn C
                       (_arb_vec_add_fn V (acb_theta_char_get_arb_fn a g) g prec) prec)).
      rewrite length_insert in IH.
      assert (Hstep := ws_body a g prec D Y C V W). rewrite Ha in Hstep.
      destruct (forallb (in_bounds (length D)) l).
      * destruct IH as (W' & IH). exists W'.
        rewrite (bind_returns _ _ _ _ _ Hstep). exact IH.
      * rewrite (bind_returns _ _ _ _ _ Hstep). exact IH.
    + apply bind_undefined.
      assert (Hstep := ws_body a g prec D Y C V W). rewrite Ha in Hstep. exact Hstep.
Qed.

Lemma ws_teardown g D Y C V W :
  (arb_mat_clear lY ;; arb_mat_clear lC ;; _arb_vec_clear lv g ;; _arb_vec_clear lw g)
    (WS D Y C V W)
  = Returns (tt, <[dist := obj_arb_vec D]> h).
Proof using Htau Hz Hdist HlY HlC Hlv Hlw Hdistinct.
  pose proof scratch_distinct as Hd; repeat (destruct Hd as [? Hd]).
  unfold arb_mat_clear, _arb_vec_clear.
  rewrite (bind_returns _ _ (WS D Y C V W) (delete lY (WS D Y C V W)) tt).
  2: { rewrite (bind_returns _ _ _ _ _ (load_arb_mat_at _ _ _ (ws_lookup_Y D Y C V W))).
       apply (free_at _ _ _ (ws_lookup_Y D Y C V W)). }
  assert (HC' : delete lY (WS D Y C V W) !! lC = Some (obj_arb_mat C))
    by (unfold working_store; lookup_cases).
  rewrite (bind_returns _ _ _ (delete lC (delete lY (WS D Y C V W))) tt).
  2: { rewrite (bind_returns _ _ _ _ _ (load_arb_mat_at _ _ _ HC')).
       apply (free_at _ _ _ HC'). }
  assert (Hv' : delete lC (delete lY (WS D Y C V W)) !! lv = Some (obj_arb_vec V))
    by (unfold working_store; lookup_cases).
  rewrite (bind_returns _ _ _ (delete lv (delete lC (delete lY (WS D Y C V W)))) tt).
  2: { rewrite (bind_returns _ _ _ _ _ (load_arb_vec_at _ _ _ Hv')).
       apply (free_at _ _ _ Hv'). }
  assert (Hw' : delete lv (delete lC (delete lY (WS D Y C V W))) !! lw
               = Some (obj_arb_vec W))
    by (unfold working_store; lookup_cases).
  rewrite (bind_returns _ _ _ _ _ (load_arb_vec_at _ _ _ Hw')).
  rewrite (free_at _ _ _ Hw'), ws_release. reflexivity.
Qed.
End working_store_facts.

Section dist_a0_facts.
Context {sub : arb_substrate}.

(* 1 << g for the number of rows g *)
Lemma int_shl_one (g : Z) :
  0 <= g -> int_shl 1 g = if g <=? 30 then Returns (2 ^ g) else Undefined.
Proof.
  intros Hg. unfold int_shl, INT_MAX. rewrite Z.mul_1_l.
  destruct (Z.leb_spec 0 1); [| lia].
  destruct (Z.leb_spec 0 g); [| lia].
  destruct (Z.leb_spec g 30) as [Hle | Hgt]; cbn [andb].
  - destruct (Z.ltb_spec g 32); [| lia].
    assert (2 ^ g <= 2 ^ 30) by (apply Z.pow_le_mono_r; lia).
    destruct (Z.leb_spec (2 ^ g) (2 ^ 31 - 1)); [reflexivity | lia].
  - destruct (Z.ltb_spec g 32); [| reflexivity].
    assert (2 ^ 31 <= 2 ^ g) by (apply Z.pow_le_mono_r; lia).
    destruct (Z.leb_spec (2 ^ g) (2 ^ 31 - 1)); [lia | reflexivity].
Qed.

(* four allocations in a row give four new, different locations *)
Lemma fresh_locations (h : gmap loc theta_object) (oY oC ov : theta_object) :
  let lY := fresh (dom h) in
  let h1 := <[lY := oY]> h in
  let lC := fresh (dom h1) in
  let h2 := <[lC := oC]> h1 in
  let lv := fresh (dom h2) in
  let h3 := <[lv := ov]> h2 in
  let lw := fresh (dom h3) in
  h !! lY = None /\ h !! lC = None /\ h !! lv = None /\ h !! lw = None /\
  NoDup [lY; lC; lv; lw].
Proof.
  intros lY h1 lC h2 lv h3 lw.
  pose proof (is_fresh (dom h)) as F1. fold lY in F1.
  pose proof (is_fresh (dom h1)) as F2. fold lC in F2.
  pose proof (is_fresh (dom h2)) as F3. fold lv in F3.
  pose proof (is_fresh (dom h3)) as F4. fold lw in F4.
  unfold h3 in F4. rewrite dom_insert_L in F4.
  unfold h2 in F3, F4. rewrite dom_insert_L in F3, F4.
  unfold h1 in F2, F3, F4. rewrite dom_insert_L in F2, F3, F4.
  apply not_elem_of_union in F2 as (N21%not_elem_of_singleton & F2).
  apply not_elem_of_union in F3 as (N32%not_elem_of_singleton & F3).
  apply not_elem_of_union in F3 as (N31%not_elem_of_singleton & F3).
  apply not_elem_of_union in F4 as (N43%not_elem_of_singleton & F4).
  apply not_elem_of_union in F4 as (N42%not_elem_of_singleton & F4).
  apply not_elem_of_union in F4 as (N41%not_elem_of_singleton & F4).
  repeat split; try (apply not_elem_of_dom; assumption).
  repeat (apply NoDup_cons; split;
          [rewrite ?not_elem_of_cons; repeat split; try congruence; apply not_elem_of_nil |]).
  apply NoDup_nil_2.
Qed.

(** The call on a store in which the three arguments point to objects
    of their types, whatever the order of the iterations. *)
Lemma dist_a0_run (order : Z -> list Z) (h : gmap loc theta_object)
    (dist z tau : loc) (prec : Z)
    (t : list (list acb)) (zs : list acb) (D0 : list arb) :
  h !! tau = Some (obj_acb_mat t) ->
  h !! z = Some (obj_acb_vec zs) ->
  h !! dist = Some (obj_arb_vec D0) ->
  let g := acb_mat_nrows t in
  acb_theta_dist_a0_in_order order dist z tau prec h =
    if (g <=? 30) && has_dims g g t && (g <=? Z.of_nat (length zs))
       && forallb (in_bounds (length D0)) (order (2 ^ g))
    then Returns (tt, <[dist := obj_arb_vec
                        (write_entries (described_entry t zs prec) D0 (order (2 ^ g)))]> h)
    else Undefined.
Proof.
  intros Htau Hz Hdist g. unfold acb_theta_dist_a0_in_order.
  rewrite (bind_returns _ _ _ _ _ (load_acb_mat_at _ _ _ Htau)). fold g.
  assert (Hg : 0 <= g) by (unfold g, acb_mat_nrows; lia).
  destruct (Z.leb_spec g 30) as [Hg30 | Hg30]; cbn [andb].
  2: { apply bind_undefined. unfold lift. rewrite (int_shl_one g Hg).
       destruct (Z.leb_spec g 30); [lia | reflexivity]. }
  rewrite (bind_returns _ _ h h (2 ^ g)).
  2: { unfold lift. rewrite (int_shl_one g Hg).
       destruct (Z.leb_spec g 30); [reflexivity | lia]. }
  unfold arb_mat_init, _arb_vec_init.
  set (Y0 := replicate (Z.to_nat g) (replicate (Z.to_nat g) arb_zero)).
  set (V0 := replicate (Z.to_nat g) arb_zero).
  pose proof (fresh_locations h (obj_arb_mat Y0) (obj_arb_mat Y0) (obj_arb_vec V0))
    as (HlY & HlC & Hlv & Hlw & Hnd).
  set (lY := fresh (dom h)) in *.
  rewrite (bind_returns _ _ h (<[lY := obj_arb_mat Y0]> h) lY) by reflexivity.
  set (h1 := <[lY := obj_arb_mat Y0]> h) in *.
  set (lC := fresh (dom h1)) in *.
  rewrite (bind_returns _ _ h1 (<[lC := obj_arb_mat Y0]> h1) lC) by reflexivity.
  set (h2 := <[lC := obj_arb_mat Y0]> h1) in *.
  set (lv := fresh (dom h2)) in *.
  rewrite (bind_returns _ _ h2 (<[lv := obj_arb_vec V0]> h2) lv) by reflexivity.
  set (h3 := <[lv := obj_arb_vec V0]> h2) in *.
  set (lw := fresh (dom h3)) in *.
  rewrite (bind_returns _ _ h3 (working_store h dist lY lC lv lw D0 Y0 Y0 V0 V0) lw).
  2: { unfold alloc, working_store, h3, h2, h1. fold lw.
       rewrite (insert_id h dist _ Hdist). reflexivity. }
  pose proof (ws_acb_mat_get_imag h dist z tau lY lC lv lw t zs D0
       Htau Hz Hdist HlY HlC Hlv Hlw Hnd D0 Y0 Y0 V0 V0) as Himag.
  pose proof (ws_acb_theta_eld_cho h dist z tau lY lC lv lw t zs D0
       Htau Hz Hdist HlY HlC Hlv Hlw Hnd prec D0
       (snd (arb_mat_inv_fn (acb_mat_get_imag_fn t) prec)) Y0 V0 V0) as Hcho.
  assert (Hsq : same_dims t Y0 = has_dims g g t)
    by apply (same_dims_replicate t g arb_zero eq_refl).
  rewrite Hsq in Himag, Hcho.
  destruct (has_dims g g t); cbn [andb].
  2: { apply bind_undefined. exact Himag. }
  rewrite (bind_returns _ _ _ _ _ Himag).
  rewrite (bind_returns _ _ _ _ _
    (ws_arb_mat_inv h dist z tau lY lC lv lw t zs D0
       Htau Hz Hdist HlY HlC Hlv Hlw Hnd prec D0 _ Y0 V0 V0)).
  rewrite (bind_returns _ _ _ _ _ Hcho).
  pose proof (ws_acb_vec_get_imag h dist z tau lY lC lv lw t zs D0
       Htau Hz Hdist HlY HlC Hlv Hlw Hnd g D0
       (snd (arb_mat_inv_fn (acb_mat_get_imag_fn t) prec))
       (acb_theta_eld_cho_fn t prec) V0 V0) as Hget.
  destruct (Z.leb_spec g (Z.of_nat (length zs))) as [Hzs | Hzs]; cbn [andb].
  2: { apply bind_undefined. exact Hget. }
  rewrite (bind_returns _ _ _ _ _ Hget).
  rewrite (bind_returns _ _ _ _ _
    (ws_mul_col_v h dist z tau lY lC lv lw t zs D0
       Htau Hz Hdist HlY HlC Hlv Hlw Hnd prec D0 _ _ _ V0)).
  pose proof (ws_loop h dist z tau lY lC lv lw t zs D0
       Htau Hz Hdist HlY HlC Hlv Hlw Hnd (order (2 ^ g)) g prec D0
       (snd (arb_mat_inv_fn (acb_mat_get_imag_fn t) prec))
       (acb_theta_eld_cho_fn t prec)
       (arb_mat_vector_mul_col_fn (snd (arb_mat_inv_fn (acb_mat_get_imag_fn t) prec))
          (_acb_vec_get_imag_fn zs g) prec) V0) as Hloop.
  cbv zeta in Hloop.
  destruct (forallb (in_bounds (length D0)) (order (2 ^ g))).
  - destruct Hloop as (W' & Hloop).
    rewrite (bind_returns _ _ _ _ _ Hloop).
    apply (ws_teardown h dist z tau lY lC lv lw t zs D0
             Htau Hz Hdist HlY HlC Hlv Hlw Hnd).
  - apply bind_undefined. exact Hloop.
Qed.

(* the ascending loop stays inside an array of m entries exactly when the
   array has n entries or more *)
Lemma in_bounds_ascending_iff (m : nat) (n : Z) :
  1 <= n -> forallb (in_bounds m) (seqZ 0 n) = true <-> n <= Z.of_nat m.
Proof.
  intros Hn. split; [| apply in_bounds_ascending].
  intros Hall. rewrite forallb_forall in Hall.
  assert (Hb : in_bounds m (n - 1) = true).
  { apply Hall, list_elem_of_In, elem_of_seqZ. lia. }
  unfold in_bounds in Hb. apply andb_true_iff in Hb as [_ Hlt]. lia.
Qed.

(* the ascending call returns exactly when the sizes fit *)
Lemma dist_a0_run_ascending (h : gmap loc theta_object) (dist z tau : loc) (prec : Z)
    (t : list (list acb)) (zs : list acb) (D0 : list arb) :
  h !! tau = Some (obj_acb_mat t) ->
  h !! z = Some (obj_acb_vec zs) ->
  h !! dist = Some (obj_arb_vec D0) ->
  let g := acb_mat_nrows t in
  let fits := g <= 30 /\ has_dims g g t = true /\ g <= Z.of_nat (length zs)
              /\ 2 ^ g <= Z.of_nat (length D0) in
  (fits ->
   acb_theta_dist_a0 dist z tau prec h
   = Returns (tt, <[dist := obj_arb_vec
                     (write_entries (described_entry t zs prec) D0 (seqZ 0 (2 ^ g)))]> h))
  /\ (~ fits -> acb_theta_dist_a0 dist z tau prec h = Undefined).
Proof.
  intros Htau Hz Hdist g fits. unfold acb_theta_dist_a0.
  rewrite (dist_a0_run _ h dist z tau prec t zs D0 Htau Hz Hdist). fold g.
  assert (Hg : 0 <= g) by (unfold g, acb_mat_nrows; lia).
  assert (Hn : 1 <= 2 ^ g) by (pose proof (Z.pow_pos_nonneg 2 g); lia).
  pose proof (in_bounds_ascending_iff (length D0) (2 ^ g) Hn) as Hiff.
  assert (Hc : (g <=? 30) && has_dims g g t && (g <=? Z.of_nat (length zs))
               && forallb (in_bounds (length D0)) (seqZ 0 (2 ^ g)) = true <-> fits).
  { unfold fits. rewrite !andb_true_iff, !Z.leb_le, Hiff. tauto. }
  destruct (_ && _) eqn:Hcond.
  - split; [reflexivity |]. intros Hnot. exfalso. apply Hnot, Hc. reflexivity.
  - split; [| reflexivity]. intros F. apply Hc in F. discriminate.
Qed.
End dist_a0_facts.

Section thread_schedules.
Context {sub : arb_substrate}.

(* threads that run one after the other make the calls of the loop *)
Lemma run_schedule_sequential (call : Z -> nat -> prog theta_object unit)
    (l : list Z) (made : Z -> nat) (h : gmap loc theta_object) :
  NoDup l -> (forall a, a ∈ l -> made a = 0%nat) ->
  run_schedule call (sequential_schedule l) made h
  = for_each l (fun a => call a 0%nat ;; call a 1%nat ;; call a 2%nat ;; call a 3%nat) h.
Proof.
  revert made h. induction l as [| a l IH]; intros made h Hnd Hmade; [reflexivity |].
  apply NoDup_cons in Hnd as [Hnotin Hnd].
  change (sequential_schedule (a :: l))
    with (a :: a :: a :: a :: sequential_schedule l).
  cbn [run_schedule for_each].
  rewrite !(decide_True (P := a = a)) by reflexivity.
  rewrite (Hmade a) by (left).
  rewrite bind_assoc. apply bind_ext. intros _ h1.
  rewrite bind_assoc. apply bind_ext. intros _ h2.
  rewrite bind_assoc. apply bind_ext. intros _ h3.
  apply bind_ext. intros _ h4.
  apply IH; [exact Hnd |].
  intros b Hb. rewrite decide_False by (intros ->; contradiction).
  rewrite decide_False by (intros ->; contradiction).
  rewrite decide_False by (intros ->; contradiction).
  rewrite decide_False by (intros ->; contradiction).
  apply Hmade. right. exact Hb.
Qed.

(** With the threads one after the other the function is the one with
    the loop, the iterations in the order of the threads. *)
Lemma dist_a0_threads_sequential (order : Z -> list Z) (dist z tau : loc) (prec : Z)
    (h : gmap loc theta_object) :
  (forall n, NoDup (order n)) ->
  acb_theta_dist_a0_threads (fun n => sequential_schedule (order n)) dist z tau prec h
  = acb_theta_dist_a0_in_order order dist z tau prec h.
Proof.
  intros Hnd. unfold acb_theta_dist_a0_threads, acb_theta_dist_a0_in_order.
  apply bind_ext. intros t h0. cbv zeta.
  apply bind_ext. intros n h1.
  apply bind_ext. intros Yinv h2.
  apply bind_ext. intros cho h3.
  apply bind_ext. intros v h4.
  apply bind_ext. intros w h5.
  apply bind_ext. intros _ h6.
  apply bind_ext. intros _ h7.
  apply bind_ext. intros _ h8.
  apply bind_ext. intros _ h9.
  apply bind_ext. intros _ h10.
  apply bind_ext_l.
  apply (run_schedule_sequential
           (dist_a0_iteration_call dist v w cho (acb_mat_nrows t) prec)).
  - apply Hnd.
  - reflexivity.
Qed.
End thread_schedules.

Section dist_a0_claims.
Context {sub : arb_substrate}.
Implicit Types (h : gmap loc theta_object) (dist z tau : loc) (prec : Z).
Implicit Types (t : list (list acb)) (zs : list acb).

(** C1, for g <= 30.  For a g x g matrix tau with g <= 30, positive
    definite or not, a vector z of g entries or more and an array of at
    least 2^g distances, [acb_theta_dist_a0] computes Yinv as the inverse
    of the imaginary part of tau, the Cholesky factor of tau, and v as
    Yinv times the imaginary part of z; entry a of the result, for a in
    [0, 2^g), is the lattice distance of the Cholesky factor times the
    sum of v and the offset of the characteristic a. *)
Theorem dist_a0_algorithm h dist z tau prec t zs (D0 : list arb) :
  h !! tau = Some (obj_acb_mat t) ->
  h !! z = Some (obj_acb_vec zs) ->
  h !! dist = Some (obj_arb_vec D0) ->
  let g := acb_mat_nrows t in
  has_dims g g t = true ->
  g <= 30 -> g <= Z.of_nat (length zs) -> 2 ^ g <= Z.of_nat (length D0) ->
  let Yinv := snd (arb_mat_inv_fn (acb_mat_get_imag_fn t) prec) in
  let cho := acb_theta_eld_cho_fn t prec in
  let v := arb_mat_vector_mul_col_fn Yinv (_acb_vec_get_imag_fn zs g) prec in
  let entry := fun a =>
    let offset := acb_theta_char_get_arb_fn a g in
    let w := arb_mat_vector_mul_col_fn cho (_arb_vec_add_fn v offset g prec) prec in
    acb_theta_dist_lat_fn w cho prec in
  acb_theta_dist_a0 dist z tau prec h =
    Returns (tt, <[dist := obj_arb_vec
                    ((entry <$> seqZ 0 (2 ^ g)) ++ drop (Z.to_nat (2 ^ g)) D0)]> h).
Proof.
  intros Htau Hz Hdist g Hsq Hg Hzs HD Yinv cho v entry.
  destruct (dist_a0_run_ascending h dist z tau prec t zs D0 Htau Hz Hdist) as [Hrun _].
  fold g in Hrun. rewrite Hrun by (repeat split; assumption).
  assert (0 <= 2 ^ g) by (apply Z.pow_nonneg; unfold g, acb_mat_nrows; lia).
  rewrite write_entries_ascending by lia. reflexivity.
Qed.

(** C2, for g <= 30.  For a g x g matrix tau with g <= 30, a vector z of
    g entries or more and an array of at least 2^g distances, the call
    writes exactly 2^g values: entry a of the array, for a in [0, 2^g),
    is the distance of the characteristic a, and the array is as before
    from index 2^g on. *)
Theorem dist_a0_output_length h dist z tau prec t zs (D0 : list arb) :
  h !! tau = Some (obj_acb_mat t) ->
  h !! z = Some (obj_acb_vec zs) ->
  h !! dist = Some (obj_arb_vec D0) ->
  let g := acb_mat_nrows t in
  has_dims g g t = true ->
  g <= 30 -> g <= Z.of_nat (length zs) -> 2 ^ g <= Z.of_nat (length D0) ->
  exists D,
    acb_theta_dist_a0 dist z tau prec h = Returns (tt, <[dist := obj_arb_vec D]> h)
    /\ length D = length D0
    /\ (forall a, 0 <= a < 2 ^ g -> D !! Z.to_nat a = Some (described_entry t zs prec a))
    /\ (forall i, 2 ^ g <= Z.of_nat i -> D !! i = D0 !! i).
Proof.
  intros Htau Hz Hdist g Hsq Hg Hzs HD.
  exists (write_entries (described_entry t zs prec) D0 (seqZ 0 (2 ^ g))).
  assert (Hnn : Forall (fun a => 0 <= a) (seqZ 0 (2 ^ g))) by (apply Forall_seqZ; lia).
  split; [| split; [| split]].
  - destruct (dist_a0_run_ascending h dist z tau prec t zs D0 Htau Hz Hdist) as [Hrun _].
    apply Hrun. repeat split; assumption.
  - apply write_entries_length.
  - intros a Ha. rewrite write_entries_lookup by exact Hnn.
    rewrite Z2Nat.id by lia.
    destruct (decide (a ∈ seqZ 0 (2 ^ g))) as [_ | Hnot].
    + destruct (lookup_lt_is_Some_2 D0 (Z.to_nat a) ltac:(lia)) as [d ->]. reflexivity.
    + exfalso. apply Hnot, elem_of_seqZ. lia.
  - intros i Hi. rewrite write_entries_lookup by exact Hnn.
    destruct (decide (Z.of_nat i ∈ seqZ 0 (2 ^ g))) as [Hin | _]; [| reflexivity].
    apply elem_of_seqZ in Hin. lia.
Qed.

(** C5, for iterations run one after the other.  Running the iterations
    of the loop in any order, each one to its end before the next starts,
    gives the same outcome as running them in ascending order, and entry a
    of the result is a function of a, of the Cholesky factor and v
    computed before the loop, and of the precision: no iteration uses what
    an earlier one wrote. *)
Theorem dist_a0_order_independent (order : Z -> list Z) h dist z tau prec t zs
    (D0 : list arb) :
  h !! tau = Some (obj_acb_mat t) ->
  h !! z = Some (obj_acb_vec zs) ->
  h !! dist = Some (obj_arb_vec D0) ->
  (forall n, order n ≡ₚ seqZ 0 n) ->
  acb_theta_dist_a0_in_order order dist z tau prec h
  = acb_theta_dist_a0 dist z tau prec h
  /\ forall h',
       acb_theta_dist_a0_in_order order dist z tau prec h = Returns (tt, h') ->
       exists D,
         h' = <[dist := obj_arb_vec D]> h /\
         forall a, 0 <= a < 2 ^ acb_mat_nrows t ->
           D !! Z.to_nat a
           = Some (characteristic_distance (described_cho t prec) (described_v t zs prec)
                     (acb_mat_nrows t) prec a).
Proof.
  intros Htau Hz Hdist Hperm. unfold acb_theta_dist_a0.
  rewrite !(dist_a0_run _ h dist z tau prec t zs D0 Htau Hz Hdist).
  set (g := acb_mat_nrows t).
  rewrite (in_bounds_perm (length D0) _ _ (Hperm (2 ^ g))).
  destruct (forallb (in_bounds (length D0)) (seqZ 0 (2 ^ g))) eqn:Hb.
  - assert (Hnn : Forall (fun a => 0 <= a) (order (2 ^ g))).
    { rewrite (Hperm (2 ^ g)). apply (in_bounds_nonneg _ _ Hb). }
    split.
    + rewrite (write_entries_perm _ D0 (order (2 ^ g)) (seqZ 0 (2 ^ g)) Hnn (Hperm _)).
      reflexivity.
    + intros h' Hrun.
      destruct ((g <=? 30) && has_dims g g t && (g <=? Z.of_nat (length zs)));
        [| discriminate].
      cbn [andb] in Hrun. injection Hrun as <-.
      eexists. split; [reflexivity |]. intros a Ha.
      rewrite (write_entries_lookup _ _ D0 _ Hnn), Z2Nat.id by lia.
      assert (Hin : a ∈ seqZ 0 (2 ^ g)) by (apply elem_of_seqZ; lia).
      destruct (decide (a ∈ order (2 ^ g))) as [_ | Hnot];
        [| exfalso; apply Hnot; rewrite (Hperm (2 ^ g)); exact Hin].
      assert (Hba : in_bounds (length D0) a = true).
      { rewrite forallb_forall in Hb. apply Hb, list_elem_of_In, Hin. }
      unfold in_bounds in Hba. apply andb_true_iff in Hba as [_ Hlt].
      destruct (lookup_lt_is_Some_2 D0 (Z.to_nat a) ltac:(lia)) as [d ->].
      reflexivity.
  - rewrite !andb_false_r. split; [reflexivity | discriminate].
Qed.

(** C6, with its limits.  [acb_theta_dist_a0] checks nothing and signals
    nothing.  It returns, with the array at dist filled, for every g x g
    matrix tau with g <= 30, positive definite or not, when z has at least
    g entries and the array at least 2^g; in every other case (tau not
    square, more than 30 rows, a shorter z, a shorter array) no test stops
    the call and its behaviour is undefined. *)
Theorem dist_a0_no_failure_path h dist z tau prec t zs (D0 : list arb) :
  h !! tau = Some (obj_acb_mat t) ->
  h !! z = Some (obj_acb_vec zs) ->
  h !! dist = Some (obj_arb_vec D0) ->
  let g := acb_mat_nrows t in
  let fits := g <= 30 /\ has_dims g g t = true /\ g <= Z.of_nat (length zs)
              /\ 2 ^ g <= Z.of_nat (length D0) in
  (fits ->
   exists D, acb_theta_dist_a0 dist z tau prec h = Returns (tt, <[dist := obj_arb_vec D]> h))
  /\ (~ fits -> acb_theta_dist_a0 dist z tau prec h = Undefined).
Proof.
  intros Htau Hz Hdist g fits.
  destruct (dist_a0_run_ascending h dist z tau prec t zs D0 Htau Hz Hdist)
    as [Hrun Hnot].
  split.
  - intros F. eexists. apply Hrun. exact F.
  - exact Hnot.
Qed.

(** C7. The call has no effect but the distances: when it returns, the
    store is the one of the caller with the array at dist replaced.  z
    and tau are as before, the locations in use are the same, so the
    four scratch objects are gone, and a second call finds nothing left
    of the first: it returns the same store again. *)
Theorem dist_a0_frame h h' dist z tau prec t zs (D0 : list arb) :
  h !! tau = Some (obj_acb_mat t) ->
  h !! z = Some (obj_acb_vec zs) ->
  h !! dist = Some (obj_arb_vec D0) ->
  acb_theta_dist_a0 dist z tau prec h = Returns (tt, h') ->
  (exists D, h' = <[dist := obj_arb_vec D]> h)
  /\ (forall l, l <> dist -> h' !! l = h !! l)
  /\ h' !! z = Some (obj_acb_vec zs)
  /\ h' !! tau = Some (obj_acb_mat t)
  /\ dom h' = dom h
  /\ acb_theta_dist_a0 dist z tau prec h' = Returns (tt, h').
Proof.
  intros Htau Hz Hdist Hrun. unfold acb_theta_dist_a0 in *.
  rewrite (dist_a0_run _ h dist z tau prec t zs D0 Htau Hz Hdist) in Hrun.
  set (g := acb_mat_nrows t) in *.
  set (f := described_entry t zs prec) in *.
  destruct ((g <=? 30) && has_dims g g t && (g <=? Z.of_nat (length zs))) eqn:Hcond;
    [| discriminate].
  destruct (forallb (in_bounds (length D0)) (seqZ 0 (2 ^ g))) eqn:Hb;
    [| discriminate].
  cbn [andb] in Hrun. injection Hrun as <-.
  assert (Hzd : dist <> z) by (intros ->; congruence).
  assert (Htd : dist <> tau) by (intros ->; congruence).
  split; [eexists; reflexivity |].
  split; [intros l Hl; apply lookup_insert_ne; congruence |].
  split; [rewrite lookup_insert_ne by exact Hzd; exact Hz |].
  split; [rewrite lookup_insert_ne by exact Htd; exact Htau |].
  split; [apply dom_insert_lookup_L; rewrite Hdist; eexists; reflexivity |].
  rewrite (dist_a0_run _ _ dist z tau prec t zs (write_entries f D0 (seqZ 0 (2 ^ g)))).
  - fold g f. rewrite Hcond, write_entries_length, Hb. cbn [andb].
    rewrite write_entries_idempotent by (apply (in_bounds_nonneg _ _ Hb)).
    rewrite insert_insert_eq. reflexivity.
  - rewrite lookup_insert_ne by exact Htd. exact Htau.
  - rewrite lookup_insert_ne by exact Hzd. exact Hz.
  - apply lookup_insert_eq.
Qed.
End dist_a0_claims.

(** *** The statements on concrete stores *)

Lemma dist_a0_algorithm_witness :
  acb_theta_dist_a0 (sub := test_substrate) 1%positive 2%positive 3%positive 53 test_store
  = Returns (tt, <[1%positive := test_arb_vec [160; 212; 180; 232]]> test_store).
Proof.
  apply (dist_a0_algorithm (sub := test_substrate) test_store 1%positive 2%positive
           3%positive 53 test_tau test_z [7; 7; 7; 7]).
  - reflexivity.
  - reflexivity.
  - reflexivity.
  - reflexivity.
  - vm_compute. discriminate.
  - vm_compute. discriminate.
  - vm_compute. discriminate.
Defined.

(* with 31 rows 1 << g is no int: nothing is returned, whatever the array *)
Lemma dist_a0_algorithm_fails_31_rows :
  ~ exists (D : list Z) h',
      Z.of_nat (length D) = 2 ^ 31 /\
      acb_theta_dist_a0 (sub := test_substrate) 1%positive 2%positive 3%positive 53
        (test_store_31 D) = Returns (tt, h').
Proof.
  intros (D & h' & _ & Hrun).
  vm_compute in Hrun. discriminate.
Qed.

Lemma dist_a0_output_length_witness :
  exists D,
    acb_theta_dist_a0 (sub := test_substrate) 1%positive 2%positive 3%positive 53 test_store
    = Returns (tt, <[1%positive := test_arb_vec D]> test_store)
    /\ length D = 4%nat
    /\ (forall a, 0 <= a < 4 ->
        D !! Z.to_nat a
        = Some (described_entry (sub := test_substrate)
                  test_tau test_z 53 a))
    /\ (forall i : nat, 4 <= Z.of_nat i -> D !! i = [7; 7; 7; 7] !! i).
Proof.
  apply (dist_a0_output_length (sub := test_substrate) test_store 1%positive 2%positive
           3%positive 53 test_tau test_z [7; 7; 7; 7]).
  - reflexivity.
  - reflexivity.
  - reflexivity.
  - reflexivity.
  - vm_compute. discriminate.
  - vm_compute. discriminate.
  - vm_compute. discriminate.
Defined.

(* with 31 rows there is no array of 2^31 distances after the call *)
Lemma dist_a0_output_length_fails_31_rows :
  ~ exists (D out : list Z) h',
      Z.of_nat (length D) = 2 ^ 31 /\
      acb_theta_dist_a0 (sub := test_substrate) 1%positive 2%positive 3%positive 53
        (test_store_31 D) = Returns (tt, h') /\
      h' !! 1%positive = Some (test_arb_vec out) /\
      Z.of_nat (length out) = 2 ^ 31.
Proof.
  intros (D & out & h' & _ & Hrun & _).
  vm_compute in Hrun. discriminate.
Qed.

Lemma dist_a0_order_independent_witness :
  acb_theta_dist_a0_in_order (sub := test_substrate) (fun n => reverse (seqZ 0 n))
    1%positive 2%positive 3%positive 53 test_store
  = acb_theta_dist_a0 (sub := test_substrate) 1%positive 2%positive 3%positive 53 test_store.
Proof.
  refine (proj1 (dist_a0_order_independent (sub := test_substrate)
                   (fun n => reverse (seqZ 0 n))
                   test_store 1%positive 2%positive 3%positive 53 test_tau test_z [7; 7; 7; 7]
                   eq_refl eq_refl eq_refl _)).
  intros n. apply reverse_Permutation.
Defined.

(* two threads that share w: the entry of thread 0 is computed from the
   vector that thread 1 left in w *)
Lemma dist_a0_threads_differ :
  test_schedule ≡ₚ sequential_schedule (seqZ 0 4)
  /\ acb_theta_dist_a0_threads (sub := test_substrate) (fun _ => test_schedule)
       1%positive 2%positive 3%positive 53 test_store
     = Returns (tt, <[1%positive := test_arb_vec [1744; 212; 180; 232]]> test_store)
  /\ acb_theta_dist_a0 (sub := test_substrate) 1%positive 2%positive 3%positive 53
       test_store
     = Returns (tt, <[1%positive := test_arb_vec [160; 212; 180; 232]]> test_store).
Proof.
  split; [| split].
  - change test_schedule
      with (0 :: ([1; 1; 1; 1] ++ [0; 0; 0]) ++ [2; 2; 2; 2; 3; 3; 3; 3]).
    change (sequential_schedule (seqZ 0 4))
      with (0 :: ([0; 0; 0] ++ [1; 1; 1; 1]) ++ [2; 2; 2; 2; 3; 3; 3; 3]).
    apply perm_skip, Permutation_app_tail, Permutation_app_comm.
  - vm_compute. reflexivity.
  - vm_compute. reflexivity.
Qed.

(* the first store, and the one with a matrix of two rows and three
   columns *)
Lemma dist_a0_no_failure_path_witness :
  (exists D,
     acb_theta_dist_a0 (sub := test_substrate) 1%positive 2%positive 3%positive 53 test_store
     = Returns (tt, <[1%positive := test_arb_vec D]> test_store))
  /\ acb_theta_dist_a0 (sub := test_substrate) 1%positive 2%positive 3%positive 53
       test_store_2_by_3 = Undefined.
Proof.
  split.
  - apply (dist_a0_no_failure_path (sub := test_substrate) test_store 1%positive
             2%positive 3%positive 53 test_tau test_z [7; 7; 7; 7]
             eq_refl eq_refl eq_refl).
    vm_compute. repeat split; discriminate.
  - apply (dist_a0_no_failure_path (sub := test_substrate) test_store_2_by_3 1%positive
             2%positive 3%positive 53
             [[(0, 2); (0, 0); (0, 1)]; [(0, 0); (0, 2); (0, 1)]] test_z [7; 7; 7; 7]
             eq_refl eq_refl eq_refl).
    intros (_ & Hsq & _). vm_compute in Hsq. discriminate.
Defined.

(* a vector z shorter than the dimension: the call reads past its end;
   31 rows: 1 << g is no int; in both cases no result is returned *)
Lemma dist_a0_no_result :
  (~ exists r,
       acb_theta_dist_a0 (sub := test_substrate) 1%positive 2%positive 3%positive 53
         test_store_short_z = Returns r)
  /\ (~ exists (D : list Z) r,
        Z.of_nat (length D) = 2 ^ 31 /\
        acb_theta_dist_a0 (sub := test_substrate) 1%positive 2%positive 3%positive 53
          (test_store_31 D) = Returns r).
Proof.
  split.
  - intros (r & Hrun). vm_compute in Hrun. discriminate.
  - intros (D & r & _ & Hrun). vm_compute in Hrun. discriminate.
Qed.

Lemma dist_a0_frame_witness :
  let h' := <[1%positive := test_arb_vec [160; 212; 180; 232]]> test_store in
  (exists D, h' = <[1%positive := test_arb_vec D]> test_store)
  /\ (forall l, l <> 1%positive -> h' !! l = test_store !! l)
  /\ h' !! 2%positive = Some (test_acb_vec test_z)
  /\ h' !! 3%positive = Some (test_acb_mat test_tau)
  /\ dom h' = dom test_store
  /\ acb_theta_dist_a0 (sub := test_substrate) 1%positive 2%positive 3%positive 53 h'
     = Returns (tt, h').
Proof.
  apply (dist_a0_frame (sub := test_substrate) test_store _ 1%positive 2%positive
           3%positive 53 test_tau test_z [7; 7; 7; 7]).
  - reflexivity.
  - reflexivity.
  - reflexivity.
  - vm_compute. reflexivity.
Defined.

(** ** The models on concrete inputs *)

Example n_flog_examples :
  n_flog 8 2 = 3 /\ n_flog 7 2 = 2 /\ n_flog 1 5 = 0 /\ n_flog 26 3 = 2.
Proof. repeat split. Qed.

Example n_clog_examples :
  n_clog 8 2 = 3 /\ n_clog 9 2 = 4 /\ n_clog 1 5 = 0 /\ n_clog 26 3 = 3.
Proof. repeat split. Qed.

Example ord_p_examples : ord_p 3 54 = 3 /\ ord_p 2 1 = 0 /\ ord_p 5 100 = 2.
Proof. repeat split. Qed.

(* v = 1, N = 10, p = 2: 13 - ceil(log_2 13) = 9 < 10 stops the countdown *)
Example padic_log_bound_2_adic : _padic_log_bound (cfg := flint64) 1 10 2 = Returns 14.
Proof. reflexivity. Qed.

Example padic_log_bound_3_adic : _padic_log_bound (cfg := flint64) 1 2 3 = Returns 3.
Proof. reflexivity. Qed.

(* a prime that is no long: ceil(100 / 5) *)
Example padic_log_bound_large_prime_example :
  _padic_log_bound (cfg := flint64) 5 100 (2 ^ 64 + 13) = Returns 20.
Proof. reflexivity. Qed.

Example padic_log_bound_aborts_32 :
  _padic_log_bound (cfg := {| FLINT_BITS := 32 |}) 5 (2 ^ 30) 3 = Aborts.
Proof. reflexivity. Qed.

(* log(4) in Z_3: y = -3 has valuation 1 *)
Example padic_log_converges :
  padic_log (cfg := flint64) (pe := test_padic)
    {| padic_unit := 5; padic_val := 3 |} {| padic_unit := 4; padic_val := 0 |}
    {| ctx_p := 3; ctx_N := 10 |}
  = Returns (1, {| padic_unit := 0; padic_val := 0 |}).
Proof. reflexivity. Qed.

(* log(3) in Z_2: y = -2 has valuation 1 < 2 *)
Example padic_log_diverges :
  padic_log (cfg := flint64) (pe := test_padic)
    {| padic_unit := 5; padic_val := 3 |} {| padic_unit := 3; padic_val := 0 |}
    {| ctx_p := 2; ctx_N := 10 |}
  = Returns (0, {| padic_unit := 5; padic_val := 3 |}).
Proof. reflexivity. Qed.

Example ca_check_equal_half :
  ca_check_equal (ce := test_ca) 1%positive 2%positive 4%positive test_ca_store
  = Returns (T_TRUE, test_ca_store).
Proof. reflexivity. Qed.

Example int_shl_examples :
  int_shl 1 4 = Returns 16 /\ int_shl 1 30 = Returns (2 ^ 30) /\
  int_shl 1 31 = Undefined /\ int_shl 1 32 = Undefined.
Proof. repeat split. Qed.

(* g = 2: the four distances, and the scratch objects gone *)
Example dist_a0_example :
  acb_theta_dist_a0 (sub := test_substrate) 1%positive 2%positive 3%positive 53 test_store
  = Returns (tt, {[ 1%positive := test_arb_vec [160; 212; 180; 232];
                    2%positive := test_acb_vec test_z;
                    3%positive := test_acb_mat test_tau ]}).
Proof. vm_compute. reflexivity. Qed.

(** ** Further properties of padic/log.c *)

Section log_bound_more.
Context {cfg : flint_config}.
Hypothesis bits_cases : FLINT_BITS = 32 \/ FLINT_BITS = 64.

(* ceil(log_p c) is at least floor(log_p v) for c = N - floor(log_p v) *)
Lemma clog_ge_flog (p v N : Z) :
  2 <= p -> 1 <= v < N -> n_flog v p <= n_clog (N - n_flog v p) p.
Proof.
  intros Hp Hv.
  destruct (n_flog_spec p Hp v ltac:(lia)) as (Hf0 & Hf1 & _).
  pose proof (n_flog_lt p Hp v ltac:(lia)) as Hf2.
  set (f := n_flog v p) in *.
  destruct (n_clog_spec p Hp (N - f) ltac:(lia)) as (HC1 & _ & HC2).
  set (C := n_clog (N - f) p) in *.
  destruct (Z.eq_dec f 0) as [-> | Hf]; [lia |].
  pose proof (exponent_lt_pow p Hp (f - 1) ltac:(lia)) as He.
  pose proof (pow_base_double p Hp (f - 1) ltac:(lia)) as Hd.
  replace (f - 1 + 1) with f in Hd by lia.
  assert (Hlt : p ^ (f - 1) < p ^ C) by lia.
  apply Z.pow_lt_mono_r_iff in Hlt; lia.
Qed.

(* the first branch up to its loop *)
Lemma padic_log_bound_small_prime_start (v N p : Z) :
  2 <= p <= LONG_MAX -> 1 <= N < 2 ^ (FLINT_BITS - 2) -> 1 <= v < N ->
  let c := N - n_flog v p in
  let q := (c + n_clog c p + 1 + (v - 1)) / v in
  _padic_log_bound v N p = _padic_log_bound_loop (S (Z.to_nat q)) q v N p
  /\ 2 <= q <= 2 * N
  /\ c + n_clog c p + 1 <= q * v <= c + n_clog c p + v.
Proof using bits_cases.
  intros Hp HN Hv c q.
  destruct (word_sizes bits_cases) as (W & HW & HW2 & HW1 & HW0).
  assert (Hmax : LONG_MAX = 2 * W - 1) by (unfold LONG_MAX; lia).
  assert (Hmin : LONG_MIN = - (2 * W)) by (unfold LONG_MIN; lia).
  destruct (n_flog_spec p ltac:(lia) v ltac:(lia)) as (Hf0 & _).
  pose proof (n_flog_lt p ltac:(lia) v ltac:(lia)) as Hf1.
  pose proof (clog_ge_flog p v N ltac:(lia) Hv) as Hcf. fold c in Hcf.
  assert (Hc : 2 <= c <= N) by (unfold c; lia).
  destruct (n_clog_spec p ltac:(lia) c ltac:(lia)) as (HC1 & _).
  pose proof (n_clog_lt p ltac:(lia) c ltac:(lia)) as HC2.
  pose proof (ceil_div_bound (c + n_clog c p + 1 + (v - 1)) v ltac:(lia) ltac:(lia)) as Hq.
  fold q in Hq.
  assert (Hq1 : 2 <= q) by (unfold c in *; nia).
  assert (Hq2 : q <= 2 * N) by nia.
  split; [| split; [lia | lia]].
  unfold _padic_log_bound.
  rewrite (shiftl_one_bits bits_cases).
  destruct (Z.geb_spec N (2 ^ (FLINT_BITS - 2))) as [? | _]; [lia |].
  unfold fmpz_fits_si.
  destruct (Z.leb_spec LONG_MIN p), (Z.leb_spec p LONG_MAX); try lia. cbn [andb].
  rewrite (to_ulong_small N), (to_ulong_small v), (to_ulong_small p)
    by (apply (long_max_ulong bits_cases); lia).
  rewrite (long_sub_ulong bits_cases) by lia. fold c.
  rewrite (to_ulong_small c) by (apply (long_max_ulong bits_cases); lia).
  rewrite (long_op_in_range (v - 1)) by lia. cbn [mbind outcome_mbind outcome_bind].
  rewrite (to_ulong_small (v - 1)) by (apply (long_max_ulong bits_cases); lia).
  unfold ulong_add.
  rewrite (to_ulong_small (c + n_clog c p)) by lia.
  rewrite (to_ulong_small (c + n_clog c p + 1)) by lia.
  rewrite (to_ulong_small (c + n_clog c p + 1 + (v - 1))) by lia.
  unfold ulong_div. destruct (Z.eqb_spec v 0) as [? | _]; [lia |].
  cbn [mbind outcome_mbind outcome_bind]. fold q.
  rewrite (to_long_small bits_cases q) by lia. reflexivity.
Qed.

(* the countdown stops at the first index that fails its test *)
Lemma log_bound_loop_tight (p v N : Z) (fuel : nat) (b : Z) :
  2 <= p <= LONG_MAX -> 1 <= v -> 1 <= N <= LONG_MAX ->
  1 <= b <= LONG_MAX -> (b - 1) * v <= LONG_MAX ->
  b < Z.of_nat fuel ->
  exists B, _padic_log_bound_loop fuel b v N p = Returns B /\ 2 <= B <= Z.max 2 b /\
            (B = 2 \/ (B - 1) * v - n_clog (B - 1) p < N) /\
            forall i, B <= i < b -> N <= i * v - n_clog i p.
Proof using bits_cases.
  intros Hp Hv HN. revert b.
  induction fuel as [|fuel IH]; intros b Hb Hbv Hfuel; [simpl in Hfuel; lia |].
  rewrite log_bound_loop_step.
  rewrite (long_op_in_range (b - 1)) by (unfold LONG_MIN, LONG_MAX in *; lia).
  cbn [mbind outcome_mbind outcome_bind].
  destruct (Z.leb_spec 2 (b - 1)) as [Hge | Hlt].
  - assert (Hbv0 : 0 <= (b - 1) * v) by nia.
    rewrite (long_op_in_range ((b - 1) * v)) by (unfold LONG_MIN, LONG_MAX in *; lia).
    cbn [mbind outcome_mbind outcome_bind].
    pose proof (n_clog_spec p ltac:(lia) (b - 1) Hge) as (HC1 & _).
    pose proof (n_clog_lt p ltac:(lia) (b - 1) Hge) as HC2.
    rewrite (to_ulong_small ((b - 1) * v)) by (apply (long_max_ulong bits_cases); lia).
    rewrite (to_ulong_small (b - 1)) by (apply (long_max_ulong bits_cases); lia).
    rewrite (to_ulong_small p) by (apply (long_max_ulong bits_cases); lia).
    rewrite (long_sub_ulong bits_cases) by lia.
    destruct (Z.ltb_spec ((b - 1) * v - n_clog (b - 1) p) N) as [Hfound | Hpass].
    + exists b. replace (b - 1 + 1) with b by lia.
      rewrite long_op_in_range by (unfold LONG_MIN, LONG_MAX in *; lia).
      split; [reflexivity |]. split; [lia |]. split; [right; exact Hfound |].
      intros i Hi. lia.
    + destruct (IH (b - 1)) as (B & HB & Hrange & Htight & Hall); [lia | nia | |].
      { rewrite Nat2Z.inj_succ in Hfuel. lia. }
      exists B. split; [exact HB |]. split; [lia |]. split; [exact Htight |].
      intros i Hi. destruct (Z.eq_dec i (b - 1)) as [-> | Hne]; [exact Hpass |].
      apply Hall. lia.
  - exists 2. split; [reflexivity |]. split; [lia |]. split; [left; reflexivity |].
    intros i Hi. lia.
Qed.

(** X1. For a prime that fits a long and 1 <= v < N < 2^(FLINT_BITS-2),
    the bound that [_padic_log_bound] returns is at most the estimate
    ceil((c + ceil(log_p c) + 1) / v) of the comment, c = N - floor(log_p v),
    and the countdown has lowered it as far as its test allows: either
    b = 2, or the index b - 1 fails (b-1)*v - ceil(log_p (b-1)) >= N; all
    indices from b up to the estimate pass this test. *)
Theorem padic_log_bound_small_prime_tight (v N p : Z) :
  2 <= p <= LONG_MAX -> 1 <= N < 2 ^ (FLINT_BITS - 2) -> 1 <= v < N ->
  let c := N - n_flog v p in
  exists b, _padic_log_bound v N p = Returns b
    /\ 2 <= b
    /\ (b - 1) * v < c + n_clog c p + 1
    /\ (b = 2 \/ (b - 1) * v - n_clog (b - 1) p < N)
    /\ forall i, b <= i -> i * v < c + n_clog c p + 1 -> N <= i * v - n_clog i p.
Proof using bits_cases.
  intros Hp HN Hv c.
  destruct (padic_log_bound_small_prime_start v N p Hp HN Hv) as (Hstart & Hq & Hqv).
  fold c in Hstart, Hq, Hqv.
  set (q := (c + n_clog c p + 1 + (v - 1)) / v) in *.
  destruct (word_sizes bits_cases) as (W & HW & HW2 & HW1 & HW0).
  assert (Hmax : LONG_MAX = 2 * W - 1) by (unfold LONG_MAX; lia).
  destruct (log_bound_loop_tight p v N (S (Z.to_nat q)) q)
    as (b & Hb & Hrange & Htight & Hall); try lia.
  { replace ((q - 1) * v) with (q * v - v) by ring.
    pose proof (n_clog_lt p ltac:(lia) c ltac:(unfold c;
      pose proof (n_flog_lt p ltac:(lia) v ltac:(lia)); lia)).
    unfold c in *. pose proof (n_flog_spec p ltac:(lia) v ltac:(lia)). lia. }
  exists b. rewrite Hstart. split; [exact Hb |]. split; [lia |].
  split; [| split; [exact Htight |]].
  - assert ((b - 1) * v <= (q - 1) * v) by nia.
    replace ((q - 1) * v) with (q * v - v) in * by ring. lia.
  - intros i Hi Hiv. apply Hall. split; [lia |].
    destruct (Z_lt_le_dec i q) as [? | Hge]; [assumption |].
    assert (q * v <= i * v) by nia. lia.
Qed.

(** X2. For a prime that does not fit a long and 1 <= v < N <
    2^(FLINT_BITS-2), [_padic_log_bound] returns ceil(N / v), and no
    smaller bound would do: the index b - 1 has
    (b-1)*v - ord_p(b-1) < N. *)
Theorem padic_log_bound_large_prime_optimal (v N p : Z) :
  LONG_MAX < p -> 1 <= N < 2 ^ (FLINT_BITS - 2) -> 1 <= v < N ->
  exists b, _padic_log_bound v N p = Returns b
    /\ (b - 1) * v < N <= b * v
    /\ (b - 1) * v - ord_p p (b - 1) < N.
Proof using bits_cases.
  intros Hp HN Hv.
  destruct (word_sizes bits_cases) as (W & HW & HW2 & HW1 & HW0).
  assert (Hmax : LONG_MAX = 2 * W - 1) by (unfold LONG_MAX; lia).
  assert (Hmin : LONG_MIN = - (2 * W)) by (unfold LONG_MIN; lia).
  unfold _padic_log_bound.
  rewrite (shiftl_one_bits bits_cases).
  destruct (Z.geb_spec N (2 ^ (FLINT_BITS - 2))) as [? | _]; [lia |].
  unfold fmpz_fits_si.
  destruct (Z.leb_spec LONG_MIN p), (Z.leb_spec p LONG_MAX); try lia. cbn [andb].
  rewrite (long_op_in_range (N + v)) by lia. cbn [mbind outcome_mbind outcome_bind].
  rewrite (long_op_in_range (N + v - 1)) by lia. cbn [mbind outcome_mbind outcome_bind].
  unfold long_div. destruct (Z.eqb_spec v 0) as [? | _]; [lia |].
  destruct (Z.eqb_spec (N + v - 1) LONG_MIN) as [? | _]; [lia |]. cbn [andb].
  rewrite Z.quot_div_nonneg by lia.
  pose proof (ceil_div_bound (N + v - 1) v ltac:(lia) ltac:(lia)) as Hq.
  set (q := (N + v - 1) / v) in *.
  exists q. split; [reflexivity |].
  assert (Hq2 : 2 <= q) by nia.
  assert (Hlow : (q - 1) * v < N) by (replace ((q - 1) * v) with (q * v - v) by ring; lia).
  split; [lia |].
  destruct (ord_p_spec p ltac:(lia) (q - 1) ltac:(lia)) as (Hk & _). lia.
Qed.

(* whatever the loop returns is at least 2 *)
Lemma log_bound_loop_result (p v N : Z) (fuel : nat) (b B : Z) :
  _padic_log_bound_loop fuel b v N p = Returns B -> 2 <= B.
Proof.
  revert b. induction fuel as [|fuel IH]; intros b; [discriminate |].
  rewrite log_bound_loop_step.
  destruct (long_op_cases (b - 1)) as [-> | ->];
    cbn [mbind outcome_mbind outcome_bind]; [| discriminate].
  destruct (Z.leb_spec 2 (b - 1)) as [Hge | _]; [| intros [= <-]; lia].
  destruct (long_op_cases ((b - 1) * v)) as [-> | ->];
    cbn [mbind outcome_mbind outcome_bind]; [| discriminate].
  destruct (_ <? N).
  - destruct (long_op_cases (b - 1 + 1)) as [-> | ->]; [| discriminate].
    intros [= <-]. lia.
  - apply IH.
Qed.

(** X3. On every input, also outside the assumed ranges, the countdown of
    [_padic_log_bound] comes to an end, and when the prime fits a long a
    returned bound is never below 2. *)
Theorem padic_log_bound_any_input (v N p : Z) :
  _padic_log_bound v N p <> OutOfFuel
  /\ (fmpz_fits_si p = true -> forall b, _padic_log_bound v N p = Returns b -> 2 <= b).
Proof.
  split; [apply padic_log_bound_terminates |].
  intros Hfits b. unfold _padic_log_bound. rewrite Hfits.
  destruct (N >=? _); [discriminate |].
  destruct (long_op_cases (v - 1)) as [-> | ->];
    cbn [mbind outcome_mbind outcome_bind]; [| discriminate].
  unfold ulong_div. destruct (to_ulong v =? 0);
    cbn [mbind outcome_mbind outcome_bind]; [discriminate |].
  apply log_bound_loop_result.
Qed.

Lemma log_bound_loop_no_abort (p v N : Z) (fuel : nat) (b : Z) :
  _padic_log_bound_loop fuel b v N p <> Aborts.
Proof.
  revert b. induction fuel as [|fuel IH]; intros b; [discriminate |].
  rewrite log_bound_loop_step.
  destruct (long_op_cases (b - 1)) as [-> | ->];
    cbn [mbind outcome_mbind outcome_bind]; [| discriminate].
  destruct (2 <=? b - 1); [| discriminate].
  destruct (long_op_cases ((b - 1) * v)) as [-> | ->];
    cbn [mbind outcome_mbind outcome_bind]; [| discriminate].
  destruct (_ <? N); [| apply IH].
  destruct (long_op_cases (b - 1 + 1)) as [-> | ->]; discriminate.
Qed.

(** X15. [_padic_log_bound] aborts exactly when N >= 2^(FLINT_BITS-2): the
    test comes first, so no other input reaches abort(); and with a smaller
    N, v = 0 is a division by zero in either branch. *)
Theorem padic_log_bound_abort_iff (v N p : Z) :
  (_padic_log_bound v N p = Aborts <-> 2 ^ (FLINT_BITS - 2) <= N)
  /\ (N < 2 ^ (FLINT_BITS - 2) -> v = 0 -> _padic_log_bound v N p = Undefined).
Proof using bits_cases.
  unfold _padic_log_bound. rewrite (shiftl_one_bits bits_cases).
  destruct (Z.geb_spec N (2 ^ (FLINT_BITS - 2))) as [Hge | Hlt].
  - split; [split; [intros _; lia | reflexivity] | lia].
  - split.
    + split; [| lia]. intros Habort. exfalso. revert Habort.
      destruct (fmpz_fits_si p).
      * destruct (long_op_cases (v - 1)) as [-> | ->];
          cbn [mbind outcome_mbind outcome_bind]; [| discriminate].
        unfold ulong_div. destruct (to_ulong v =? 0);
          cbn [mbind outcome_mbind outcome_bind]; [discriminate |].
        apply log_bound_loop_no_abort.
      * destruct (long_op_cases (N + v)) as [-> | ->];
          cbn [mbind outcome_mbind outcome_bind]; [| discriminate].
        destruct (long_op_cases (N + v - 1)) as [-> | ->];
          cbn [mbind outcome_mbind outcome_bind]; [| discriminate].
        unfold long_div. destruct (v =? 0); [discriminate |].
        destruct (_ && _); discriminate.
    + intros _ ->. destruct (fmpz_fits_si p).
      * destruct (long_op_cases (0 - 1)) as [-> | ->];
          cbn [mbind outcome_mbind outcome_bind]; [| reflexivity].
        assert (Hzero : to_ulong 0 = 0) by (apply to_ulong_small;
          destruct (word_sizes bits_cases) as (W & ? & _ & _ & ->); lia).
        unfold ulong_div. rewrite Hzero. reflexivity.
      * destruct (long_op_cases (N + 0)) as [-> | ->];
          cbn [mbind outcome_mbind outcome_bind]; [| reflexivity].
        destruct (long_op_cases (N + 0 - 1)) as [-> | ->];
          cbn [mbind outcome_mbind outcome_bind]; [| reflexivity].
        reflexivity.
Qed.
End log_bound_more.

Lemma padic_log_bound_small_prime_tight_witness :
  exists b, _padic_log_bound (cfg := flint64) 1 10 2 = Returns b
    /\ 2 <= b
    /\ (b - 1) * 1 < 10 - n_flog 1 2 + n_clog (10 - n_flog 1 2) 2 + 1
    /\ (b = 2 \/ (b - 1) * 1 - n_clog (b - 1) 2 < 10)
    /\ forall i, b <= i -> i * 1 < 10 - n_flog 1 2 + n_clog (10 - n_flog 1 2) 2 + 1 ->
         10 <= i * 1 - n_clog i 2.
Proof.
  apply (padic_log_bound_small_prime_tight (cfg := flint64) (or_intror eq_refl) 1 10 2).
  - vm_compute. split; discriminate.
  - vm_compute. split; [discriminate | reflexivity].
  - lia.
Defined.

Lemma padic_log_bound_large_prime_optimal_witness :
  exists b, _padic_log_bound (cfg := flint64) 5 100 (2 ^ 64 + 13) = Returns b
    /\ (b - 1) * 5 < 100 <= b * 5
    /\ (b - 1) * 5 - ord_p (2 ^ 64 + 13) (b - 1) < 100.
Proof.
  apply (padic_log_bound_large_prime_optimal (cfg := flint64) (or_intror eq_refl)
           5 100 (2 ^ 64 + 13)).
  - vm_compute. reflexivity.
  - vm_compute. split; [discriminate | reflexivity].
  - lia.
Defined.

(* v = 10 > N = 3 is outside the assumptions *)
Lemma padic_log_bound_any_input_witness :
  _padic_log_bound (cfg := flint64) 10 3 3 <> OutOfFuel
  /\ forall b, _padic_log_bound (cfg := flint64) 10 3 3 = Returns b -> 2 <= b.
Proof.
  destruct (padic_log_bound_any_input (cfg := flint64) 10 3 3) as [Hfuel Hres].
  split; [exact Hfuel |].
  apply Hres. reflexivity.
Defined.

Lemma padic_log_bound_abort_iff_witness :
  _padic_log_bound (cfg := flint64) 5 (2 ^ 62) 3 = Aborts
  /\ _padic_log_bound (cfg := flint64) 0 10 3 = Undefined.
Proof.
  destruct (padic_log_bound_abort_iff (cfg := flint64) (or_intror eq_refl) 5 (2 ^ 62) 3)
    as [Habort _].
  destruct (padic_log_bound_abort_iff (cfg := flint64) (or_intror eq_refl) 0 10 3)
    as [_ Hzero].
  split.
  - apply Habort. vm_compute. discriminate.
  - apply Hzero; reflexivity.
Defined.

Section padic_log_more.
Context {cfg : flint_config} {pe : padic_externals}.

(** X4. [_padic_log] divides 2^9 by the bit count of p: with a bit count
    of zero the call is undefined; with a positive bit count B it runs
    the rectangular algorithm exactly when (N + 1) * B <= 512 and the
    balanced one otherwise. *)
Theorem padic_log_dispatch (y v p N : Z) :
  let B := to_long (fmpz_bits p) in
  (B = 0 -> _padic_log y v p N = Undefined)
  /\ (0 < B ->
      _padic_log y v p N =
        Returns (if (N + 1) * B <=? 512 then _padic_log_rectangular y v p N
                 else _padic_log_balanced y v p N)).
Proof.
  intros B. unfold _padic_log, long_div. fold B.
  change (Z.shiftl 1 9) with 512.
  split.
  - intros HB. rewrite HB. reflexivity.
  - intros HB. destruct (Z.eqb_spec B 0) as [? | _]; [lia |].
    assert (Hmin : 512 <> LONG_MIN).
    { unfold LONG_MIN. pose proof (Z.pow_nonneg 2 (FLINT_BITS - 1)). lia. }
    destruct (Z.eqb_spec 512 LONG_MIN) as [? | _]; [contradiction |].
    cbn [andb mbind outcome_mbind outcome_bind].
    rewrite Z.quot_div_nonneg by lia.
    pose proof (Z.div_mod 512 B ltac:(lia)) as Hdm.
    pose proof (Z.mod_pos_bound 512 B HB) as Hmod.
    destruct (Z.ltb_spec N (512 / B)) as [Hlt | Hge];
      destruct (Z.leb_spec ((N + 1) * B) 512) as [Hle | Hgt];
      try reflexivity; exfalso; nia.
Qed.

End padic_log_more.

Section padic_log_series_arguments.
Context {cfg : flint_config} (pe : padic_externals).
Variables (rect bal : Z -> Z -> Z -> Z -> Z).

(** X6. [padic_log] keeps to what [_padic_log] assumes of its arguments:
    it runs the series only with y non-zero, 1 <= v < N, and 2 <= v when
    p = 2.  Replacing the two series routines by any others that agree
    with them on such arguments leaves every outcome of [padic_log] as it
    is. *)
Theorem padic_log_series_arguments (rop op : padic_struct) (ctx : padic_ctx_struct) :
  (forall y v p N, y <> 0 -> 1 <= v < N -> (p = 2 -> 2 <= v) ->
     rect y v p N = _padic_log_rectangular (padic_externals := pe) y v p N /\
     bal y v p N = _padic_log_balanced (padic_externals := pe) y v p N) ->
  padic_log (pe := padic_with_series pe rect bal) rop op ctx
  = padic_log (pe := pe) rop op ctx.
Proof.
  intros Hagree. unfold padic_log. cbn [padic_with_series padic_get_fmpz fmpz_remove
    padic_zero _padic_canonicalise].
  destruct (padic_val op <? 0); [reflexivity |].
  set (y := - (padic_get_fmpz op ctx - 1)).
  destruct (Z.eqb_spec y 0) as [Hy | Hy]; [reflexivity |].
  set (v := snd (fmpz_remove y (ctx_p ctx))).
  destruct (Z.geb_spec v 2) as [Hv2 | Hv2];
    destruct (Z.eqb_spec (ctx_p ctx) 2) as [Hp2 | Hp2];
    destruct (Z.geb_spec v 1) as [Hv1 | Hv1];
    cbn [orb andb negb]; try reflexivity; try lia.
  all: destruct (Z.geb_spec v (ctx_N ctx)) as [HvN | HvN]; [reflexivity |];
    destruct (Hagree y v (ctx_p ctx) (ctx_N ctx) Hy ltac:(lia) ltac:(lia)) as [Hr Hb];
    unfold _padic_log; cbn [padic_with_series fmpz_bits _padic_log_rectangular
                              _padic_log_balanced];
    rewrite Hr, Hb; reflexivity.
Qed.
End padic_log_series_arguments.

Lemma padic_log_dispatch_witness :
  _padic_log (cfg := flint64) (pe := test_padic) (-3) 1 3 10
  = Returns (_padic_log_rectangular (padic_externals := test_padic) (-3) 1 3 10).
Proof.
  refine (proj2 (padic_log_dispatch (cfg := flint64) (pe := test_padic) (-3) 1 3 10) _).
  vm_compute. reflexivity.
Defined.

(* series routines that differ from the test ones only where v < 1 *)
Lemma padic_log_series_arguments_witness :
  padic_log (cfg := flint64)
    (pe := padic_with_series test_padic
             (fun y v p N => if v <? 1 then 99 else 0)
             (fun y v p N => if v <? 1 then 77 else 0))
    {| padic_unit := 5; padic_val := 3 |} {| padic_unit := 4; padic_val := 0 |}
    {| ctx_p := 3; ctx_N := 10 |}
  = padic_log (cfg := flint64) (pe := test_padic)
      {| padic_unit := 5; padic_val := 3 |} {| padic_unit := 4; padic_val := 0 |}
      {| ctx_p := 3; ctx_N := 10 |}.
Proof.
  apply (padic_log_series_arguments (cfg := flint64) test_padic).
  intros y v p N _ Hv _. cbn [test_padic _padic_log_rectangular _padic_log_balanced].
  destruct (Z.ltb_spec v 1); [lia |]. split; reflexivity.
Defined.

(** ** Further properties of ca/check_equal.c *)

Section ca_check_equal_more.
Context {ce : ca_externals}.

(* the call on a valid first operand, by cases on what y points to *)
Lemma ca_check_equal_run (x y ctx : loc) (h : gmap loc ca_object) (xs : ca_struct) :
  h !! x = Some (obj_ca xs) ->
  ca_check_equal x y ctx h =
    if ca_field xs =? CA_FIELD_ID_QQ then
      match h !! y with
      | Some (obj_ca ys) =>
          if ca_field ys =? CA_FIELD_ID_QQ then
            match ca_elem_of xs, ca_elem_of ys with
            | elem_q qx, elem_q qy =>
                Returns (if fmpq_equal qx qy then T_TRUE else T_FALSE, h)
            | _, _ => Undefined
            end
          else Returns (T_UNKNOWN, h)
      | _ => Undefined
      end
    else Returns (T_UNKNOWN, h).
Proof.
  intros Hx. unfold ca_check_equal.
  rewrite (bind_returns _ _ _ _ _ (load_ca_at x h xs Hx)).
  destruct (ca_field xs =? CA_FIELD_ID_QQ); [| reflexivity].
  destruct (h !! y) as [[ys | c] |] eqn:Hy.
  - rewrite (bind_returns _ _ _ _ _ (load_ca_at y h ys Hy)).
    destruct (ca_field ys =? CA_FIELD_ID_QQ); [| reflexivity].
    unfold CA_FMPQ, mbind, prog_bind, mret, prog_ret, undefined.
    destruct (ca_elem_of xs), (ca_elem_of ys); reflexivity.
  - apply bind_undefined. unfold load_ca.
    rewrite (bind_returns _ _ _ _ _ (load_at y h _ Hy)). reflexivity.
  - apply bind_undefined. unfold load_ca. apply bind_undefined.
    unfold load. rewrite Hy. reflexivity.
Qed.

Lemma fmpq_equal_sym (a b : Q) : fmpq_equal a b = fmpq_equal b a.
Proof.
  unfold fmpq_equal.
  destruct (Qeq_bool a b) eqn:Hab, (Qeq_bool b a) eqn:Hba; try reflexivity.
  - apply Qeq_bool_iff, Qeq_sym, Qeq_bool_iff in Hab. congruence.
  - apply Qeq_bool_iff, Qeq_sym, Qeq_bool_iff in Hba. congruence.
Qed.

(* equal rationals compare alike with a third one *)
Lemma fmpq_equal_congr (a b c : Q) :
  fmpq_equal a b = true -> fmpq_equal a c = fmpq_equal b c.
Proof.
  unfold fmpq_equal. intros Hab. apply Qeq_bool_iff in Hab.
  destruct (Qeq_bool a c) eqn:Hac, (Qeq_bool b c) eqn:Hbc; try reflexivity.
  - apply Qeq_bool_iff in Hac.
    assert (Hbc' : Qeq b c) by (rewrite <- Hab; exact Hac).
    apply Qeq_bool_iff in Hbc'. congruence.
  - apply Qeq_bool_iff in Hbc.
    assert (Hac' : Qeq a c) by (rewrite Hab; exact Hbc).
    apply Qeq_bool_iff in Hac'. congruence.
Qed.

(** X7. The answer of [ca_check_equal] does not depend on the order of its
    two operands. *)
Theorem ca_check_equal_symmetric (x y ctx : loc) (h : gmap loc ca_object)
    (xs ys : ca_struct) :
  h !! x = Some (obj_ca xs) -> h !! y = Some (obj_ca ys) ->
  ca_check_equal x y ctx h = ca_check_equal y x ctx h.
Proof.
  intros Hx Hy.
  rewrite (ca_check_equal_run x y ctx h xs Hx), (ca_check_equal_run y x ctx h ys Hy).
  rewrite Hx, Hy.
  destruct (ca_field xs =? CA_FIELD_ID_QQ), (ca_field ys =? CA_FIELD_ID_QQ);
    try reflexivity.
  destruct (ca_elem_of xs) as [qx | |], (ca_elem_of ys) as [qy | |]; try reflexivity.
  rewrite (fmpq_equal_sym qx qy). reflexivity.
Qed.

(** X8. The second operand is read only when the first one lies in QQ.
    With x outside QQ the answer is T_UNKNOWN whatever y points to, even
    nothing; with x in QQ a pointer y to no element makes the call
    undefined. *)
Theorem ca_check_equal_short_circuit (x y ctx : loc) (h : gmap loc ca_object)
    (xs : ca_struct) :
  h !! x = Some (obj_ca xs) ->
  (ca_field xs <> CA_FIELD_ID_QQ -> ca_check_equal x y ctx h = Returns (T_UNKNOWN, h))
  /\ (ca_field xs = CA_FIELD_ID_QQ -> h !! y = None ->
      ca_check_equal x y ctx h = Undefined).
Proof.
  intros Hx. rewrite (ca_check_equal_run x y ctx h xs Hx). split.
  - intros Hf. destruct (Z.eqb_spec (ca_field xs) CA_FIELD_ID_QQ); [contradiction |].
    reflexivity.
  - intros Hf Hy. destruct (Z.eqb_spec (ca_field xs) CA_FIELD_ID_QQ); [| contradiction].
    rewrite Hy. reflexivity.
Qed.

(** X9. Comparing an element with itself never gives T_FALSE: the answer
    is T_TRUE for an element of QQ and T_UNKNOWN for any other. *)
Theorem ca_check_equal_same_operand (x ctx : loc) (h : gmap loc ca_object)
    (xs : ca_struct) :
  h !! x = Some (obj_ca xs) ->
  (ca_field xs = CA_FIELD_ID_QQ -> exists q, ca_elem_of xs = elem_q q) ->
  ca_check_equal x x ctx h =
    Returns (if ca_field xs =? CA_FIELD_ID_QQ then T_TRUE else T_UNKNOWN, h).
Proof.
  intros Hx Hwf. rewrite (ca_check_equal_run x x ctx h xs Hx), Hx.
  destruct (Z.eqb_spec (ca_field xs) CA_FIELD_ID_QQ) as [Hf | _]; [| reflexivity].
  destruct (Hwf Hf) as (q & ->).
  assert (Hq : fmpq_equal q q = true) by (apply Qeq_bool_iff, Qeq_refl).
  rewrite Hq. reflexivity.
Qed.

(** X10. An element that compares T_TRUE with x stands for x in every
    other comparison: if [ca_check_equal] answers T_TRUE for x and y, then
    comparing x with any z has the same outcome as comparing y with z. *)
Theorem ca_check_equal_substitutes (x y z ctx : loc) (h : gmap loc ca_object)
    (xs ys : ca_struct) :
  h !! x = Some (obj_ca xs) -> h !! y = Some (obj_ca ys) ->
  ca_check_equal x y ctx h = Returns (T_TRUE, h) ->
  ca_check_equal x z ctx h = ca_check_equal y z ctx h.
Proof.
  intros Hx Hy Hxy.
  rewrite (ca_check_equal_run x y ctx h xs Hx), Hy in Hxy.
  rewrite (ca_check_equal_run x z ctx h xs Hx), (ca_check_equal_run y z ctx h ys Hy).
  destruct (ca_field xs =? CA_FIELD_ID_QQ); [| discriminate].
  destruct (ca_field ys =? CA_FIELD_ID_QQ); [| discriminate].
  destruct (ca_elem_of xs) as [qx | |], (ca_elem_of ys) as [qy | |]; try discriminate.
  destruct (fmpq_equal qx qy) eqn:Hq; [| discriminate].
  destruct (h !! z) as [[zs | c] |]; try reflexivity.
  destruct (ca_field zs =? CA_FIELD_ID_QQ); [| reflexivity].
  destruct (ca_elem_of zs) as [qz | |]; try reflexivity.
  rewrite (fmpq_equal_congr qx qy qz Hq). reflexivity.
Qed.
End ca_check_equal_more.

Lemma ca_check_equal_symmetric_witness :
  ca_check_equal (ce := test_ca) 1%positive 3%positive 4%positive test_ca_store
  = ca_check_equal (ce := test_ca) 3%positive 1%positive 4%positive test_ca_store.
Proof.
  exact (ca_check_equal_symmetric (ce := test_ca) 1%positive 3%positive 4%positive
           test_ca_store _ _ eq_refl eq_refl).
Defined.

(* location 3 holds an element of another field, location 9 nothing *)
Lemma ca_check_equal_short_circuit_witness :
  ca_check_equal (ce := test_ca) 3%positive 9%positive 4%positive test_ca_store
    = Returns (T_UNKNOWN, test_ca_store)
  /\ ca_check_equal (ce := test_ca) 1%positive 9%positive 4%positive test_ca_store
     = Undefined.
Proof.
  split.
  - refine (proj1 (ca_check_equal_short_circuit (ce := test_ca) 3%positive 9%positive
                     4%positive test_ca_store _ eq_refl) _).
    vm_compute. discriminate.
  - refine (proj2 (ca_check_equal_short_circuit (ce := test_ca) 1%positive 9%positive
                     4%positive test_ca_store _ eq_refl) _ _); reflexivity.
Defined.

Lemma ca_check_equal_same_operand_witness :
  ca_check_equal (ce := test_ca) 2%positive 2%positive 4%positive test_ca_store
  = Returns (T_TRUE, test_ca_store).
Proof.
  refine (ca_check_equal_same_operand (ce := test_ca) 2%positive 4%positive
            test_ca_store _ eq_refl _).
  intros _. eexists. reflexivity.
Defined.

(* 1/2 and 2/4 compare T_TRUE, so both compare alike with 1/3 *)
Lemma ca_check_equal_substitutes_witness :
  ca_check_equal (ce := test_ca) 1%positive 4%positive 9%positive test_ca_store_QQ
  = ca_check_equal (ce := test_ca) 2%positive 4%positive 9%positive test_ca_store_QQ.
Proof.
  refine (ca_check_equal_substitutes (ce := test_ca) 1%positive 2%positive 4%positive
            9%positive test_ca_store_QQ _ _ eq_refl eq_refl _).
  reflexivity.
Defined.

(** ** Further properties of acb_theta/dist_a0.c *)

Section dist_a0_more.
Context {sub : arb_substrate}.
Implicit Types (h : gmap loc theta_object) (dist z tau : loc) (prec : Z).
Implicit Types (t : list (list acb)) (zs : list acb).

(* entries written by an earlier, shorter loop are written again *)
Lemma write_entries_over (f1 f2 : Z -> arb) (D : list arb) (n1 n2 : Z) :
  0 <= n1 <= n2 ->
  write_entries f2 (write_entries f1 D (seqZ 0 n1)) (seqZ 0 n2)
  = write_entries f2 D (seqZ 0 n2).
Proof.
  intros Hn. apply list_eq. intros i.
  rewrite !write_entries_lookup by (apply Forall_seqZ; lia).
  destruct (decide (Z.of_nat i ∈ seqZ 0 n2)) as [Hin2 | Hnin2].
  - destruct (decide (Z.of_nat i ∈ seqZ 0 n1)); [| reflexivity].
    destruct (D !! i); reflexivity.
  - destruct (decide (Z.of_nat i ∈ seqZ 0 n1)) as [Hin1 | _]; [| reflexivity].
    exfalso. apply Hnin2. apply elem_of_seqZ in Hin1. apply elem_of_seqZ. lia.
Qed.

(** X12. Nothing of a call survives a later call on the same array with a
    matrix of at least as many rows: after a first call has returned, the
    second call, at any precision and with any z, has the outcome it would
    have had without the first. *)
Theorem dist_a0_later_call_overwrites h h1 dist
    z1 tau1 prec1 z2 tau2 prec2 t1 zs1 t2 zs2 (D0 : list arb) :
  h !! tau1 = Some (obj_acb_mat t1) -> h !! z1 = Some (obj_acb_vec zs1) ->
  h !! tau2 = Some (obj_acb_mat t2) -> h !! z2 = Some (obj_acb_vec zs2) ->
  h !! dist = Some (obj_arb_vec D0) ->
  acb_mat_nrows t1 <= acb_mat_nrows t2 ->
  acb_theta_dist_a0 dist z1 tau1 prec1 h = Returns (tt, h1) ->
  acb_theta_dist_a0 dist z2 tau2 prec2 h1 = acb_theta_dist_a0 dist z2 tau2 prec2 h.
Proof.
  intros Htau1 Hz1 Htau2 Hz2 Hdist Hrows Hrun1. unfold acb_theta_dist_a0 in *.
  rewrite (dist_a0_run _ h dist z1 tau1 prec1 t1 zs1 D0 Htau1 Hz1 Hdist) in Hrun1.
  destruct (_ && _); [| discriminate]. injection Hrun1 as <-.
  set (D1 := write_entries (described_entry t1 zs1 prec1) D0
               (seqZ 0 (2 ^ acb_mat_nrows t1))).
  assert (Hzd : dist <> z2) by (intros ->; congruence).
  assert (Htd : dist <> tau2) by (intros ->; congruence).
  rewrite (dist_a0_run _ (<[dist := obj_arb_vec D1]> h) dist z2 tau2 prec2 t2 zs2 D1).
  2: { rewrite lookup_insert_ne by exact Htd. exact Htau2. }
  2: { rewrite lookup_insert_ne by exact Hzd. exact Hz2. }
  2: { apply lookup_insert_eq. }
  rewrite (dist_a0_run _ h dist z2 tau2 prec2 t2 zs2 D0 Htau2 Hz2 Hdist).
  unfold D1 at 1. rewrite write_entries_length.
  destruct (_ && _); [| reflexivity].
  rewrite insert_insert_eq. unfold D1. rewrite write_entries_over; [reflexivity |].
  split; [apply Z.pow_nonneg; lia |].
  apply Z.pow_le_mono_r; [lia |]. unfold acb_mat_nrows in *. lia.
Qed.

(** X13. Calls that fill different arrays do not disturb each other: run in
    either order they lead to the same outcome. *)
Theorem dist_a0_calls_commute h dist1 z1 tau1 prec1 dist2 z2 tau2 prec2
    t1 zs1 t2 zs2 (D1 D2 : list arb) :
  h !! tau1 = Some (obj_acb_mat t1) -> h !! z1 = Some (obj_acb_vec zs1) ->
  h !! tau2 = Some (obj_acb_mat t2) -> h !! z2 = Some (obj_acb_vec zs2) ->
  h !! dist1 = Some (obj_arb_vec D1) -> h !! dist2 = Some (obj_arb_vec D2) ->
  dist1 <> dist2 ->
  (acb_theta_dist_a0 dist1 z1 tau1 prec1 ;; acb_theta_dist_a0 dist2 z2 tau2 prec2) h
  = (acb_theta_dist_a0 dist2 z2 tau2 prec2 ;; acb_theta_dist_a0 dist1 z1 tau1 prec1) h.
Proof.
  intros Htau1 Hz1 Htau2 Hz2 Hd1 Hd2 Hne. unfold acb_theta_dist_a0.
  assert (N1 : dist1 <> z2) by (intros ->; congruence).
  assert (N2 : dist1 <> tau2) by (intros ->; congruence).
  assert (N3 : dist2 <> z1) by (intros ->; congruence).
  assert (N4 : dist2 <> tau1) by (intros ->; congruence).
  pose proof (dist_a0_run (fun n => seqZ 0 n) h dist1 z1 tau1 prec1 t1 zs1 D1
                Htau1 Hz1 Hd1) as R1.
  pose proof (dist_a0_run (fun n => seqZ 0 n) h dist2 z2 tau2 prec2 t2 zs2 D2
                Htau2 Hz2 Hd2) as R2.
  cbv zeta in R1, R2.
  set (E1 := write_entries (described_entry t1 zs1 prec1) D1
               (seqZ 0 (2 ^ acb_mat_nrows t1))) in *.
  set (E2 := write_entries (described_entry t2 zs2 prec2) D2
               (seqZ 0 (2 ^ acb_mat_nrows t2))) in *.
  pose proof (dist_a0_run (fun n => seqZ 0 n) (<[dist1 := obj_arb_vec E1]> h)
                dist2 z2 tau2 prec2 t2 zs2 D2) as R21.
  rewrite !lookup_insert_ne in R21 by congruence.
  specialize (R21 Htau2 Hz2 Hd2). cbv zeta in R21. fold E2 in R21.
  pose proof (dist_a0_run (fun n => seqZ 0 n) (<[dist2 := obj_arb_vec E2]> h)
                dist1 z1 tau1 prec1 t1 zs1 D1) as R12.
  rewrite !lookup_insert_ne in R12 by congruence.
  specialize (R12 Htau1 Hz1 Hd1). cbv zeta in R12. fold E1 in R12.
  destruct (_ && _) in R1, R12; destruct (_ && _) in R2, R21.
  - rewrite (bind_returns _ _ _ _ _ R1), (bind_returns _ _ _ _ _ R2), R21, R12.
    rewrite (insert_insert_ne h dist1 dist2) by exact Hne. reflexivity.
  - rewrite (bind_returns _ _ _ _ _ R1), (bind_undefined _ _ _ R2), R21. reflexivity.
  - rewrite (bind_undefined _ _ _ R1), (bind_returns _ _ _ _ _ R2), R12. reflexivity.
  - rewrite (bind_undefined _ _ _ R1), (bind_undefined _ _ _ R2). reflexivity.
Qed.

(** X14. For a matrix without rows the loop still runs once, since
    1 << 0 = 1: the call writes entry 0 of the array, and is undefined when
    the array is empty. *)
Theorem dist_a0_no_rows h dist z tau prec zs (D0 : list arb) :
  h !! tau = Some (obj_acb_mat []) ->
  h !! z = Some (obj_acb_vec zs) ->
  h !! dist = Some (obj_arb_vec D0) ->
  acb_theta_dist_a0 dist z tau prec h =
    match D0 with
    | [] => Undefined
    | _ :: D => Returns (tt, <[dist := obj_arb_vec (described_entry [] zs prec 0 :: D)]> h)
    end.
Proof.
  intros Htau Hz Hdist. unfold acb_theta_dist_a0.
  rewrite (dist_a0_run _ h dist z tau prec [] zs D0 Htau Hz Hdist).
  change (acb_mat_nrows []) with 0. change (2 ^ 0) with 1.
  change (seqZ 0 1) with [0].
  destruct (Z.leb_spec 0 (Z.of_nat (length zs))); [| lia].
  destruct D0 as [| d D]; reflexivity.
Qed.
End dist_a0_more.

(* a call at precision 53, then one at precision 64 *)
Lemma dist_a0_later_call_overwrites_witness :
  acb_theta_dist_a0 (sub := test_substrate) 1%positive 2%positive 3%positive 64
    (<[1%positive := test_arb_vec [160; 212; 180; 232]]> test_store)
  = acb_theta_dist_a0 (sub := test_substrate) 1%positive 2%positive 3%positive 64
      test_store.
Proof.
  refine (dist_a0_later_call_overwrites (sub := test_substrate) test_store _ 1%positive
            2%positive 3%positive 53 2%positive 3%positive 64
            test_tau test_z test_tau test_z [7; 7; 7; 7]
            eq_refl eq_refl eq_refl eq_refl eq_refl _ _).
  - vm_compute. discriminate.
  - vm_compute. reflexivity.
Defined.

Lemma dist_a0_calls_commute_witness :
  (acb_theta_dist_a0 (sub := test_substrate) 1%positive 2%positive 3%positive 53 ;;
   acb_theta_dist_a0 (sub := test_substrate) 4%positive 2%positive 3%positive 64)
    test_store_two_arrays
  = (acb_theta_dist_a0 (sub := test_substrate) 4%positive 2%positive 3%positive 64 ;;
     acb_theta_dist_a0 (sub := test_substrate) 1%positive 2%positive 3%positive 53)
      test_store_two_arrays.
Proof.
  refine (dist_a0_calls_commute (sub := test_substrate) test_store_two_arrays
            1%positive 2%positive 3%positive 53 4%positive 2%positive 3%positive 64
            test_tau test_z test_tau test_z [7; 7; 7; 7] [9; 9; 9; 9; 9]
            eq_refl eq_refl eq_refl eq_refl eq_refl eq_refl _).
  discriminate.
Defined.

Lemma dist_a0_no_rows_witness :
  acb_theta_dist_a0 (sub := test_substrate) 1%positive 2%positive 3%positive 53
    test_store_no_rows
  = Returns (tt, <[1%positive := test_arb_vec [0; 7]]> test_store_no_rows).
Proof.
  exact (dist_a0_no_rows (sub := test_substrate) test_store_no_rows 1%positive 2%positive
           3%positive 53 [] [7; 7] eq_refl eq_refl eq_refl).
Defined.
